(** * freevoice: dictionary matching, filler scrubbing and the recording state machine

    A shallow embedding of [src/dictionary.py], [src/scrubber.py] and the
    hot-key state machine of [src/app.py], with the properties of the
    design document stated and proved (or refuted) over it.

    Conventions of the embedding.
    - A Python [str] is a list of characters ([list ascii]).  The model is
      exact on ASCII text: the character classes below are Python's classes
      restricted to code points below 128, and characters from 128 on are
      treated as caseless non-word, non-space symbols.
    - A Python [float] is a primitive binary64 float ([PrimFloat.float]), with
      the same round-to-nearest operations CPython uses.
    - A Python [set] of keys is a duplicate-free list.
    - [None] is [option]'s [None]; [str.find]'s [-1] is [None] too. *)

From Stdlib Require Import List Ascii String Bool Arith PeanoNat Lia.
From Stdlib Require Import ZArith Uint63 Floats.
From Stdlib Require Import Sorting.Permutation Sorting.Sorted.
Import ListNotations.

Set Warnings "-inexact-float".

Set Implicit Arguments.

(** ** Python strings *)

Module Py.

Definition str := list ascii.

Definition py (s : string) : str := list_ascii_of_string s.

(** [len(s)] *)
Definition len (s : str) : nat := List.length s.

Definition ord (c : ascii) : nat := nat_of_ascii c.

Definition in_range (lo hi : nat) (c : ascii) : bool :=
  (lo <=? ord c) && (ord c <=? hi).

Definition is_upper (c : ascii) : bool := in_range 65 90 c.
Definition is_lower (c : ascii) : bool := in_range 97 122 c.
Definition is_digit (c : ascii) : bool := in_range 48 57 c.

(** [str.isalnum] on one character. *)
Definition isalnum (c : ascii) : bool := is_upper c || is_lower c || is_digit c.

(** The regular-expression class [\w]. *)
Definition is_word (c : ascii) : bool := isalnum c || (ord c =? 95).

(** [str.isspace] on one character, which is also the class [\s] and what
    [str.split()] and [str.strip()] cut on: TAB, LF, VT, FF, CR, the four
    separators 0x1C to 0x1F, and the blank. *)
Definition isspace (c : ascii) : bool :=
  in_range 9 13 c || in_range 28 31 c || (ord c =? 32).

Definition lower_char (c : ascii) : ascii :=
  if is_upper c then ascii_of_nat (ord c + 32) else c.

Definition upper_char (c : ascii) : ascii :=
  if is_lower c then ascii_of_nat (ord c - 32) else c.

(** [s.lower()] *)
Definition lower (s : str) : str := map lower_char s.

Definition eqb_char (a b : ascii) : bool := Ascii.eqb a b.

Fixpoint eqb_str (a b : str) : bool :=
  match a, b with
  | [], [] => true
  | x :: a', y :: b' => eqb_char x y && eqb_str a' b'
  | _, _ => false
  end.

Definition space : ascii := " "%char.
Definition newline : ascii := ascii_of_nat 10.

(** [s.replace(' ', '')] *)
Definition remove_spaces (s : str) : str :=
  filter (fun c => negb (eqb_char c space)) s.

(** [s.split()]: the maximal runs of non-space characters. *)
Fixpoint split_from (cur : str) (s : str) : list str :=
  match s with
  | [] => match cur with [] => [] | _ => [rev cur] end
  | c :: t =>
      if isspace c
      then match cur with
           | [] => split_from [] t
           | _ => rev cur :: split_from [] t
           end
      else split_from (c :: cur) t
  end.

Definition split (s : str) : list str := split_from [] s.

(** [s.split(sep)] for a one-character separator: every separator cuts, and
    empty pieces are kept. *)
Fixpoint split_on_from (sep : ascii) (cur : str) (s : str) : list str :=
  match s with
  | [] => [rev cur]
  | c :: t =>
      if eqb_char c sep
      then rev cur :: split_on_from sep [] t
      else split_on_from sep (c :: cur) t
  end.

Definition split_on (sep : ascii) (s : str) : list str := split_on_from sep [] s.

(** [' '.join(ws)] *)
Fixpoint join (ws : list str) : str :=
  match ws with
  | [] => []
  | [w] => w
  | w :: rest => w ++ space :: join rest
  end.

(** [s.startswith(p)] *)
Fixpoint startswith (p s : str) : bool :=
  match p, s with
  | [], _ => true
  | x :: p', y :: s' => eqb_char x y && startswith p' s'
  | _ :: _, [] => false
  end.

(** [s.find(p)], with [None] for [-1]. *)
Fixpoint find_from (p s : str) (i : nat) : option nat :=
  if startswith p s then Some i
  else match s with
       | [] => None
       | _ :: t => find_from p t (S i)
       end.

Definition find (s p : str) : option nat := find_from p s 0.

Fixpoint lstrip (s : str) : str :=
  match s with
  | c :: t => if isspace c then lstrip t else s
  | [] => []
  end.

(** [s.strip()] *)
Definition strip (s : str) : str := rev (lstrip (rev (lstrip s))).

(** The number of leading characters of [s] in the class [p]. *)
Fixpoint span (p : ascii -> bool) (s : str) : nat :=
  match s with
  | c :: t => if p c then S (span p t) else 0
  | [] => 0
  end.

Definition head (s : str) : option ascii :=
  match s with c :: _ => Some c | [] => None end.

End Py.

(** ** The regular expressions of the program

    Every pattern the program hands to [re.sub] is modelled by a matcher: given
    the character before the current position and the text from the position
    on, the length of the match starting there, if there is one.  Each
    pattern below is deterministic under greedy matching (no shorter
    alternative can succeed where the greedy one fails), so a matcher needs no
    backtracking. *)

Module Re.
Import Py.

Definition matcher := option ascii -> str -> option nat.

(** [re.sub(pattern, repl, s)]: scan from the left; at the first position
    where the pattern matches, emit [repl] of the matched text and go on
    after the match.  [skip] counts the characters of the current match still
    to be dropped.  An empty match (only the filler pattern of an empty
    filler has one) is replaced too and the scan then moves one character on,
    as CPython does since 3.7. *)
Fixpoint sub_from (m : matcher) (repl : str -> str)
         (prev : option ascii) (skip : nat) (s : str) : str :=
  match s with
  | [] =>
      match skip, m prev [] with
      | 0, Some _ => repl []
      | _, _ => []
      end
  | c :: t =>
      match skip with
      | S k => sub_from m repl (Some c) k t
      | 0 =>
          match m prev s with
          | Some 0 => repl [] ++ c :: sub_from m repl (Some c) 0 t
          | Some (S k) => repl (firstn (S k) s) ++ sub_from m repl (Some c) k t
          | None => c :: sub_from m repl (Some c) 0 t
          end
      end
  end.

Definition sub (m : matcher) (repl : str -> str) (s : str) : str :=
  sub_from m repl None 0 s.

(** A pattern that is a plain string. *)
Definition literal (p : str) : matcher :=
  fun _ s => if startswith p s then Some (len p) else None.

(** [p$]: [p] at the very end, or just before a final line feed. *)
Definition literal_at_end (p : str) : matcher :=
  fun _ s =>
    if eqb_str s p || eqb_str s (p ++ [newline]) then Some (len p) else None.

(** [\b]: exactly one of the two neighbours is a word character; outside the
    text counts as a non-word character. *)
Definition word_char (c : option ascii) : bool :=
  match c with Some x => is_word x | None => false end.

Definition word_boundary (before after : option ascii) : bool :=
  xorb (word_char before) (word_char after).

(** A string matched letter by letter, ignoring case ([re.IGNORECASE] on an
    escaped literal): what is left of [s] after it. *)
Fixpoint strip_prefix_ci (p s : str) : option str :=
  match p, s with
  | [], _ => Some s
  | x :: p', y :: s' =>
      if eqb_char (lower_char x) (lower_char y) then strip_prefix_ci p' s' else None
  | _ :: _, [] => None
  end.

Definition literal_ci (p : str) : matcher :=
  fun _ s => match strip_prefix_ci p s with Some _ => Some (len p) | None => None end.

(** *** Replacement templates

    The replacement argument of [Pattern.sub], when it is a string, is a
    template.  [re] parses it ([parse_template]) when [sub] is called, before
    it looks for a match:
    - a character other than a backslash stands for itself;
    - [\a \b \f \n \r \t \v] stand for the control characters and a
      doubled backslash for one backslash;
    - [\0], [\0o] and [\0oo] (octal digits [o]) and [\ooo] up to [\377]
      stand for the character of that code;
    - [\g<n>], with [n] written in ASCII digits, and [\d], [\dd] stand for
      group [n]; the patterns that meet a template in this program are escaped
      literals, whose only group is group 0, the whole match, so every other
      reference raises [re.error];
    - a backslash before any other ASCII letter raises [re.error] (bad
      escape), and so does a backslash at the very end;
    - a backslash before any other character stays, with that character.

    (Group names are read as CPython 3.12 reads them; up to 3.11 a name such as
    [+0] is still taken for 0, with a deprecation warning.  A name that is an
    identifier raises [IndexError], no such group being defined.)  [None]
    stands for the exception. *)

Inductive piece :=
| Chars (s : str)   (* literal text *)
| Group0.           (* the text matched *)

(** Where the parser is, between two characters. *)
Inductive mode :=
| Text                            (* outside an escape *)
| Escape                          (* after a backslash *)
| GroupOpen                       (* after [\g] *)
| GroupName (name : str)          (* after [\g<], with the name read so far *)
| Octal (more value : nat)        (* after [\0]: at most [more] digits to come *)
| Digit1 (d1 : ascii)             (* after [\d], [d] from 1 to 9 *)
| Digit2 (d1 d2 : ascii).         (* after [\dd] *)

Definition backslash : ascii := ascii_of_nat 92.

Definition is_octal (c : ascii) : bool := in_range 48 55 c.

Definition is_ascii_letter (c : ascii) : bool := is_upper c || is_lower c.

Definition digit_value (c : ascii) : nat := ord c - 48.

(** The table [ESCAPES] of the parser. *)
Definition ESCAPES (c : ascii) : option ascii :=
  if eqb_char c "a" then Some (ascii_of_nat 7)
  else if eqb_char c "b" then Some (ascii_of_nat 8)
  else if eqb_char c "f" then Some (ascii_of_nat 12)
  else if eqb_char c "n" then Some (ascii_of_nat 10)
  else if eqb_char c "r" then Some (ascii_of_nat 13)
  else if eqb_char c "t" then Some (ascii_of_nat 9)
  else if eqb_char c "v" then Some (ascii_of_nat 11)
  else if eqb_char c backslash then Some backslash
  else None.

(** [int(name)] for a name made of ASCII digits. *)
Definition group_index (name : str) : option nat :=
  match name with
  | [] => None
  | _ => if forallb is_digit name
         then Some (fold_left (fun v c => 10 * v + digit_value c) name 0)
         else None
  end.

Definition text_step (c : ascii) : list piece * mode :=
  if eqb_char c backslash then ([], Escape) else ([Chars [c]], Text).

(** One character of the template: the pieces it completes and the mode
    after it. *)
Definition template_step (m : mode) (c : ascii) : option (list piece * mode) :=
  match m with
  | Text => Some (text_step c)
  | Escape =>
      if eqb_char c "g" then Some ([], GroupOpen)
      else if eqb_char c "0" then Some ([], Octal 2 0)
      else if is_digit c then Some ([], Digit1 c)
      else
        match ESCAPES c with
        | Some x => Some ([Chars [x]], Text)
        | None =>
            if is_ascii_letter c then None
            else Some ([Chars [backslash; c]], Text)
        end
  | GroupOpen => if eqb_char c "<" then Some ([], GroupName []) else None
  | GroupName name =>
      if eqb_char c ">" then
        match group_index name with
        | Some 0 => Some ([Group0], Text)
        | _ => None
        end
      else Some ([], GroupName (name ++ [c]))
  | Octal more value =>
      let done := let (out, m') := text_step c in
                  Some (Chars [ascii_of_nat (value mod 256)] :: out, m') in
      match more with
      | S more' =>
          if is_octal c then Some ([], Octal more' (8 * value + digit_value c))
          else done
      | 0 => done
      end
  | Digit1 d1 => if is_digit c then Some ([], Digit2 d1 c) else None
  | Digit2 d1 d2 =>
      if is_octal d1 && is_octal d2 && is_octal c then
        let value := 64 * digit_value d1 + 8 * digit_value d2 + digit_value c in
        if 255 <? value then None else Some ([Chars [ascii_of_nat value]], Text)
      else None
  end.

(** The end of the template. *)
Definition template_end (m : mode) : option (list piece) :=
  match m with
  | Text => Some []
  | Octal _ value => Some [Chars [ascii_of_nat (value mod 256)]]
  | Escape | GroupOpen | GroupName _ | Digit1 _ | Digit2 _ _ => None
  end.

Fixpoint parse_from (m : mode) (source : str) : option (list piece) :=
  match source with
  | [] => template_end m
  | c :: rest =>
      match template_step m c with
      | Some (out, m') =>
          match parse_from m' rest with
          | Some pieces => Some (out ++ pieces)
          | None => None
          end
      | None => None
      end
  end.

(** [parse_template] *)
Definition parse_template (source : str) : option (list piece) :=
  parse_from Text source.

(** [expand_template], for the text matched. *)
Definition expand_template (template : list piece) (matched : str) : str :=
  flat_map (fun p => match p with Chars s => s | Group0 => matched end) template.

End Re.

(** ** [src/scrubber.py] *)

Module Scrubber.
Import Py Re.

(** The two configuration fields of the class. *)
Record t := { enabled : bool; fillers : list str }.

(** [_use_defaults] *)
Definition _use_defaults : t :=
  {| enabled := true;
     fillers := map py ["um"; "uh"; "uhm"; "uhh"; "ah"; "ahh"; "er"; "err";
                        "hmm"; "hm"; "mm"; "mhm"]%string |}.

(** [sorted(xs, key=len, reverse=True)]: a stable sort, longest first; items
    of equal length keep their order. *)
Fixpoint insert_by_len (x : str) (sorted : list str) : list str :=
  match sorted with
  | [] => [x]
  | y :: rest =>
      if len y <? len x then x :: sorted else y :: insert_by_len x rest
  end.

Definition sorted_by_len_desc (xs : list str) : list str :=
  fold_left (fun acc x => insert_by_len x acc) xs [].

Definition is_comma_or_period (c : ascii) : bool :=
  eqb_char c ","%char || eqb_char c "."%char.

(** The class [[.,!?]]. *)
Definition is_punct (c : ascii) : bool :=
  is_comma_or_period c || eqb_char c "!"%char || eqb_char c "?"%char.

(** The class [[.!?]]. *)
Definition is_sentence_end (c : ascii) : bool :=
  eqb_char c "."%char || eqb_char c "!"%char || eqb_char c "?"%char.

Definition last_of (p : str) (before : option ascii) : option ascii :=
  match rev p with c :: _ => Some c | [] => before end.

(** [(?i)\b] + [re.escape(filler)] + [\b[,.]?\s*] *)
Definition filler_pattern (filler : str) : matcher :=
  fun prev s =>
    if word_boundary prev (head s) then
      match strip_prefix_ci filler s with
      | None => None
      | Some rest =>
          if word_boundary (last_of (firstn (len filler) s) prev) (head rest) then
            let n1 := match rest with
                      | c :: _ => if is_comma_or_period c then 1 else 0
                      | [] => 0
                      end in
            Some (len filler + n1 + span isspace (skipn n1 rest))
          else None
      end
    else None.

(** [\s+] *)
Definition spaces_pattern : matcher :=
  fun _ s => match span isspace s with 0 => None | n => Some n end.

(** [\s+([.,!?])] *)
Definition space_before_punct_pattern : matcher :=
  fun _ s =>
    match span isspace s with
    | 0 => None
    | n => match skipn n s with
           | c :: _ => if is_punct c then Some (S n) else None
           | [] => None
           end
    end.

(** [([.,!?])\s*([.,!?])] *)
Definition double_punct_pattern : matcher :=
  fun _ s =>
    match s with
    | c :: t =>
        if is_punct c then
          let n := span isspace t in
          match skipn n t with
          | d :: _ => if is_punct d then Some (S (S n)) else None
          | [] => None
          end
        else None
    | [] => None
    end.

(** [([.!?]\s+)([a-z])] *)
Definition sentence_start_pattern : matcher :=
  fun _ s =>
    match s with
    | c :: t =>
        if is_sentence_end c then
          match span isspace t with
          | 0 => None
          | n => match skipn n t with
                 | d :: _ => if is_lower d then Some (S (S n)) else None
                 | [] => None
                 end
          end
        else None
    | [] => None
    end.

(** The replacement [\1] of a match whose first group is its last character. *)
Definition last_char (m : str) : str :=
  match rev m with c :: _ => [c] | [] => [] end.

(** The replacement [\1] of a match whose first group is its first character. *)
Definition first_char (m : str) : str :=
  match m with c :: _ => [c] | [] => [] end.

(** [lambda m: m.group(1) + m.group(2).upper()] *)
Definition upper_last (m : str) : str :=
  match rev m with
  | c :: r => rev r ++ [upper_char c]
  | [] => []
  end.

(** [_cleanup] *)
Definition _cleanup (text : str) : str :=
  let text := sub spaces_pattern (fun _ => [space]) text in
  let text := sub space_before_punct_pattern last_char text in
  let text := sub double_punct_pattern first_char text in
  let text := sub sentence_start_pattern upper_last text in
  let text := match text with
              | c :: rest => if is_lower c then upper_char c :: rest else text
              | [] => text
              end in
  strip text.

Definition remove_filler (result filler : str) : str :=
  sub (filler_pattern filler) (fun _ => [space]) result.

(** [scrub] *)
Definition scrub (self : t) (text : str) : str :=
  if negb (enabled self) || match text with [] => true | _ => false end
  then text
  else
    let sorted_fillers := sorted_by_len_desc (fillers self) in
    let result := fold_left remove_filler sorted_fillers text in
    _cleanup result.

End Scrubber.

(** ** Python floats *)

Module Float.

(** [float(n)] for a length or a count [n]; exact below [2^53]. *)
Definition of_nat (n : nat) : float :=
  PrimFloat.of_uint63 (Uint63.of_Z (Z.of_nat n)).

(** [max(a, b)]: the first of the largest, [b] only when [b > a]. *)
Definition max (a b : float) : float := if PrimFloat.ltb a b then b else a.

(** [min(a, b)]: the first of the smallest, [b] only when [b < a]. *)
Definition min (a b : float) : float := if PrimFloat.ltb b a then b else a.

(** [a >= b] *)
Definition geb (a b : float) : bool := PrimFloat.leb b a.

End Float.

(** ** [difflib.SequenceMatcher(None, a, b).ratio()]

    The matcher of Python's standard library, as the program calls it: no junk
    predicate, and the automatic junk heuristic left on.  With no junk
    predicate the junk set is empty, so the two loops of
    [find_longest_match] that absorb junk never run and are left out. *)

Module Difflib.
Import Py.

Record Match := { m_a : nat; m_b : nat; m_size : nat }.

Definition count (c : ascii) (b : str) : nat :=
  List.length (filter (eqb_char c) b).

(** [__chain_b]: in a second sequence of 200 items or more, an item that
    makes up more than 1% of it (plus one) is "popular" and is dropped from
    the index [b2j]. *)
Definition popular (b : str) (c : ascii) : bool :=
  (200 <=? len b) && (len b / 100 + 1 <? count c b).

(** One pass of the inner loop of [find_longest_match], for the item [x] at
    index [i] of [a]: [j] runs over [b] in increasing order; [j2len] is the
    previous row from index [j] on, [diag] its entry at [j - 1].  Returns the
    new row and the best match so far. *)
Fixpoint row (usable : bool) (x : ascii) (i blo bhi : nat)
         (j diag : nat) (bs : str) (j2len : list nat) (best : Match)
  : list nat * Match :=
  match bs with
  | [] => ([], best)
  | y :: bs' =>
      let here := hd 0 j2len in
      if usable && (blo <=? j) && (j <? bhi) && eqb_char x y then
        let k := S diag in
        let best' :=
          if m_size best <? k
          then {| m_a := i + 1 - k; m_b := j + 1 - k; m_size := k |}
          else best in
        let (r, res) := row usable x i blo bhi (S j) here bs' (tl j2len) best' in
        (k :: r, res)
      else
        let (r, res) := row usable x i blo bhi (S j) here bs' (tl j2len) best in
        (0 :: r, res)
  end.

(** The outer loop, over [a[alo:ahi]]: [n] items are left, the next at [i]. *)
Fixpoint rows (b : str) (blo bhi : nat) (i n : nat) (rest : str)
         (j2len : list nat) (best : Match) : Match :=
  match n, rest with
  | S n', x :: rest' =>
      let (r, best') :=
        row (negb (popular b x)) x i blo bhi 0 0 b j2len best in
      rows b blo bhi (S i) n' rest' r best'
  | _, _ => best
  end.

Definition same_item (x y : option ascii) : bool :=
  match x, y with
  | Some c, Some d => eqb_char c d
  | _, _ => false
  end.

(** The first extension loop: grow the match to the left while the items
    agree. It runs at most [m_a m - alo] times. *)
Fixpoint extend_left (a b : str) (alo blo : nat) (fuel : nat) (m : Match) : Match :=
  match fuel with
  | 0 => m
  | S fuel' =>
      if (alo <? m_a m) && (blo <? m_b m)
         && same_item (nth_error a (m_a m - 1)) (nth_error b (m_b m - 1))
      then extend_left a b alo blo fuel'
             {| m_a := m_a m - 1; m_b := m_b m - 1; m_size := S (m_size m) |}
      else m
  end.

(** The second extension loop: grow the match to the right. It runs at most
    [ahi - (m_a m + m_size m)] times. *)
Fixpoint extend_right (a b : str) (ahi bhi : nat) (fuel : nat) (m : Match) : Match :=
  match fuel with
  | 0 => m
  | S fuel' =>
      if (m_a m + m_size m <? ahi) && (m_b m + m_size m <? bhi)
         && same_item (nth_error a (m_a m + m_size m)) (nth_error b (m_b m + m_size m))
      then extend_right a b ahi bhi fuel'
             {| m_a := m_a m; m_b := m_b m; m_size := S (m_size m) |}
      else m
  end.

(** [find_longest_match(alo, ahi, blo, bhi)] *)
Definition find_longest_match (a b : str) (alo ahi blo bhi : nat) : Match :=
  let best := rows b blo bhi alo (ahi - alo) (skipn alo a) []
                   {| m_a := alo; m_b := blo; m_size := 0 |} in
  let best := extend_left a b alo blo (m_a best - alo) best in
  extend_right a b ahi bhi (ahi - (m_a best + m_size best)) best.

(** The loop of [get_matching_blocks]: the queue is a stack (its head is the
    end of the Python list).  Every pass takes one range off the stack and
    puts back at most two strictly smaller ones, so [2 * len(a) + 1] passes
    empty it. *)
Fixpoint blocks_loop (a b : str) (fuel : nat)
         (queue : list (nat * nat * nat * nat)) (acc : list Match) : list Match :=
  match fuel, queue with
  | S fuel', (alo, ahi, blo, bhi) :: queue' =>
      let x := find_longest_match a b alo ahi blo bhi in
      let i := m_a x in
      let j := m_b x in
      let k := m_size x in
      if k =? 0 then blocks_loop a b fuel' queue' acc
      else
        let q1 := if (alo <? i) && (blo <? j)
                  then (alo, i, blo, j) :: queue' else queue' in
        let q2 := if (i + k <? ahi) && (j + k <? bhi)
                  then (i + k, ahi, j + k, bhi) :: q1 else q1 in
        blocks_loop a b fuel' q2 (acc ++ [x])
  | _, _ => acc
  end.

(** The blocks in the order the loop finds them. ([get_matching_blocks]
    goes on to sort them, merge adjacent ones and add an empty sentinel;
    none of this changes the sum of the sizes, which is all [ratio] reads.) *)
Definition get_matching_blocks (a b : str) : list Match :=
  blocks_loop a b (2 * len a + 1) [(0, len a, 0, len b)] [].

(** The number of matched items: the sum over the matching blocks. *)
Definition matches (a b : str) : nat :=
  fold_right (fun x acc => m_size x + acc) 0 (get_matching_blocks a b).

(** [_calculate_ratio] *)
Definition _calculate_ratio (matches length : nat) : float :=
  if length =? 0 then 1.0%float
  else (2.0 * Float.of_nat matches / Float.of_nat length)%float.

Definition ratio (a b : str) : float :=
  _calculate_ratio (matches a b) (len a + len b).

(** A match found in [a[alo:hi]] lies in it. *)
Definition within (alo hi : nat) (m : Match) : Prop :=
  alo <= m_a m /\ m_a m + m_size m <= hi.

(** What is left to do for a stack of ranges. *)
Fixpoint work (queue : list (nat * nat * nat * nat)) : nat :=
  match queue with
  | [] => 0
  | (alo, ahi, _, _) :: rest => 2 * (ahi - alo) + 1 + work rest
  end.

Definition well_formed (queue : list (nat * nat * nat * nat)) : Prop :=
  Forall (fun range => fst (fst (fst range)) <= snd (fst (fst range))) queue.

End Difflib.

(** ** [src/dictionary.py] *)

Module Dictionary.
Import Py Re.

(** The fields of the class: the terms, and the cache of their phonetic
    forms as a list of pairs. *)
Record t := { terms : list str; _phonetic_cache : list (str * str) }.

Definition same_char (prev : option ascii) (c : ascii) : bool :=
  match prev with Some d => eqb_char d c | None => false end.

(** [re.sub(r'(.)\1+', r'\1', s)]: a run of one character, other than a line
    feed, shrinks to a single one.  [prev] is the character just before. *)
Fixpoint collapse_runs (prev : option ascii) (s : str) : str :=
  match s with
  | [] => []
  | c :: rest =>
      if same_char prev c && negb (eqb_char c newline)
      then collapse_runs prev rest
      else c :: collapse_runs (Some c) rest
  end.

Inductive rule :=
| Plain (pattern replacement : string)
| AtEnd (pattern replacement : string)
| Runs.

(** The table [substitutions], in its order. *)
Definition substitutions : list rule :=
  [ Plain "effects" "fx"; Plain "efects" "fx"; Plain "efx" "fx";
    Plain "ea" "e"; Plain "ee" "e"; Plain "ai" "a"; Plain "ay" "a";
    Plain "oo" "u"; Plain "ou" "o"; Plain "oi" "oy"; Plain "ie" "i";
    Plain "ph" "f"; Plain "ck" "k"; Plain "x" "ks"; Plain "qu" "kw";
    Plain "ce" "se"; Plain "ci" "si"; Plain "cy" "sy";
    Plain "tion" "shun"; Plain "sion" "zhun"; Plain "ght" "t";
    Plain "wh" "w"; Plain "wr" "r"; Plain "kn" "n"; Plain "gn" "n";
    AtEnd "mb" "m"; Plain "mn" "n";
    Runs;
    AtEnd "e" EmptyString; AtEnd "ed" "d"; AtEnd "ing" "n" ]%string.

Definition apply_rule (result : str) (r : rule) : str :=
  match r with
  | Plain p q => sub (literal (py p)) (fun _ => py q) result
  | AtEnd p q => sub (literal_at_end (py p)) (fun _ => py q) result
  | Runs => collapse_runs None result
  end.

(** [_to_phonetic] *)
Definition _to_phonetic (text : str) : str :=
  let text := lower text in
  let text := remove_spaces text in
  let result := fold_left apply_rule substitutions text in
  filter (fun c => is_lower c || is_digit c) result.

(** [load], given the list under ["terms"] in the file. *)
Definition load (file_terms : list str) : t :=
  {| terms := file_terms;
     _phonetic_cache := map (fun term => (term, _to_phonetic term)) file_terms |}.

(** [_similarity] *)
Definition _similarity (a b : str) : float := Difflib.ratio a b.

(** [self._phonetic_cache.get(term, default)] *)
Fixpoint cache_get (cache : list (str * str)) (term : str) (default : str) : str :=
  match cache with
  | [] => default
  | (k, v) :: rest => if eqb_str k term then v else cache_get rest term default
  end.

(** [_phonetic_similarity] *)
Definition _phonetic_similarity (self : t) (text term : str) : float :=
  let text_phonetic := _to_phonetic text in
  let term_phonetic := cache_get (_phonetic_cache self) term (_to_phonetic term) in
  let phonetic_sim := _similarity text_phonetic term_phonetic in
  let raw_sim := _similarity (remove_spaces (lower text)) (lower term) in
  Float.max phonetic_sim raw_sim.

(** A tuple of the list [matches]. *)
Record candidate := {
  original : str;
  replacement : str;
  similarity : float;
  start : nat;
  end_ : nat
}.

Definition ignore_words : list str :=
  map py [ "the"; "a"; "an"; "to"; "of"; "in"; "on"; "at"; "by"; "for";
           "is"; "it"; "be"; "as"; "or"; "and"; "but"; "if"; "so"; "no";
           "out"; "up"; "do"; "my"; "me"; "we"; "he"; "she"; "you"; "i";
           "was"; "has"; "had"; "are"; "were"; "been"; "have"; "get"; "got" ]%string.

Definition mem (w : str) (ws : list str) : bool := existsb (eqb_str w) ws.

(** The threshold a window must reach, as the loop body computes it. *)
Definition threshold_for (phrase term : str) : float :=
  let threshold :=
    if len term <=? 4 then 0.90%float
    else if len term <=? 6 then 0.80%float
    else 0.75%float in
  let threshold :=
    if List.length (split phrase) =? 1 then Float.max threshold 0.85%float
    else threshold in
  if PrimFloat.ltb (Float.of_nat (len term) * 1.5)%float
                   (Float.of_nat (len (remove_spaces phrase)))
  then Float.max threshold 0.90%float
  else threshold.

(** The body of the innermost loop of [_find_matches_in_text], for the
    window of [window_size] words starting at word [i]: the tuple it
    appends, if any. *)
Definition window_match (self : t) (text : str) (words : list str)
           (term : str) (window_size i : nat) : option candidate :=
  let phrase := join (firstn window_size (skipn i words)) in
  let phrase_words := split (lower phrase) in
  if forallb (fun w => mem w ignore_words) phrase_words then None
  else if PrimFloat.ltb (Float.of_nat (len (remove_spaces phrase)))
                        (Float.of_nat (len term) * 0.4)%float then None
  else
    let similarity := _phonetic_similarity self phrase term in
    if Float.geb similarity (threshold_for phrase term) then
      match find (lower text) (lower phrase) with
      | Some start =>
          Some {| original := phrase; replacement := term;
                  similarity := similarity;
                  start := start; end_ := start + len phrase |}
      | None => None
      end
    else None.

Definition opt_list {A} (o : option A) : list A :=
  match o with Some x => [x] | None => [] end.

(** [range(lo, hi)] *)
Definition range (lo hi : nat) : list nat := seq lo (hi - lo).

Definition matches_for_term (self : t) (text : str) (words : list str)
           (term : str) : list candidate :=
  let term_word_count := List.length (split term) in
  let max_window := Nat.max 4 (term_word_count + 1) in
  flat_map
    (fun window_size =>
       flat_map
         (fun i => opt_list (window_match self text words term window_size i))
         (range 0 (List.length words - window_size + 1)))
    (range 1 (Nat.min (max_window + 1) (List.length words + 1))).

(** [_find_matches_in_text] *)
Definition _find_matches_in_text (self : t) (text : str) : list candidate :=
  let words := split text in
  match words, terms self with
  | [], _ | _, [] => []
  | _, _ => flat_map (matches_for_term self text words) (terms self)
  end.

(** [match_score], the sort key. *)
Definition match_score (m : candidate) : float :=
  let len_ratio :=
    (Float.of_nat (len (remove_spaces (original m)))
     / Float.of_nat (Nat.max (len (replacement m)) 1))%float in
  let len_score := (1.0 - Float.min (PrimFloat.abs (len_ratio - 1.2)) 1.0)%float in
  (- (similarity m * 10 + len_score))%float.

(** [list.sort(key=match_score)]: a stable sort by increasing key, which
    compares keys with [<] only. *)
Fixpoint insert_by_score (x : candidate) (sorted : list candidate) : list candidate :=
  match sorted with
  | [] => [x]
  | y :: rest =>
      if PrimFloat.ltb (match_score x) (match_score y)
      then x :: sorted
      else y :: insert_by_score x rest
  end.

Definition sort_by_score (ms : list candidate) : list candidate :=
  fold_left (fun acc x => insert_by_score x acc) ms [].

(** The state of the replacement loop of [apply]. *)
Record state := { result : str; applied : list (nat * nat) }.

(** [not (end <= applied_start or start >= applied_end)] for one of the
    spans applied so far. *)
Definition spans_overlap (s1 e1 s2 e2 : nat) : bool :=
  negb ((e1 <=? s2) || (e2 <=? s1)).

Definition overlaps_applied (m : candidate) (applied : list (nat * nat)) : bool :=
  existsb (fun span => spans_overlap (start m) (end_ m) (fst span) (snd span)) applied.

(** [original.lower() == replacement.lower()] *)
Definition same_as_term (m : candidate) : bool :=
  eqb_str (lower (original m)) (lower (replacement m)).

(** The window has several words and one of them is the term itself. *)
Definition contains_term_word (m : candidate) : bool :=
  let original_words := split (lower (original m)) in
  (1 <? List.length original_words)
  && existsb (fun word => eqb_str word (lower (replacement m))) original_words.

(** [re.compile(re.escape(p), re.IGNORECASE).sub(repl, s, count=1)], the
    template once parsed: the leftmost occurrence of [p], ignoring case, is
    replaced by [repl] of the text matched. *)
Fixpoint sub_first_ci (p : str) (repl : str -> str) (s : str) : str :=
  match strip_prefix_ci p s with
  | Some rest => repl (firstn (len p) s) ++ rest
  | None => match s with
            | [] => []
            | c :: t => c :: sub_first_ci p repl t
            end
  end.

(** What one pass of the replacement loop does with its candidate. *)
Inductive outcome :=
| Skipped                       (* [continue], an overlap, or no change *)
| Committed (new_result : str)  (* the text is replaced and the span recorded *)
| Raised.                       (* [re] rejects the term as a template *)

Definition decide_step (st : state) (m : candidate) : outcome :=
  if same_as_term m then Skipped
  else if contains_term_word m then Skipped
  else if overlaps_applied m (applied st) then Skipped
  else
    match parse_template (replacement m) with
    | None => Raised
    | Some template =>
        let new_result :=
          sub_first_ci (original m) (expand_template template) (result st) in
        if eqb_str new_result (result st) then Skipped
        else Committed new_result
    end.

(** One pass of the replacement loop. *)
Definition apply_step (st : state) (m : candidate) : option state :=
  match decide_step st m with
  | Skipped => Some st
  | Committed new_result =>
      Some {| result := new_result;
              applied := applied st ++ [(start m, end_ m)] |}
  | Raised => None
  end.

Fixpoint apply_loop (st : state) (ms : list candidate) : option state :=
  match ms with
  | [] => Some st
  | m :: rest =>
      match apply_step st m with
      | Some st' => apply_loop st' rest
      | None => None
      end
  end.

(** The candidates for which the loop, started in state [st], appends a
    span to [applied], in the order of the loop. *)
Definition span_of (m : candidate) : nat * nat := (start m, end_ m).

Fixpoint committed (st : state) (ms : list candidate) : list candidate :=
  match ms with
  | [] => []
  | m :: rest =>
      match apply_step st m with
      | Some st' =>
          match decide_step st m with
          | Committed _ => m :: committed st' rest
          | Skipped | Raised => committed st' rest
          end
      | None => []
      end
  end.

(** [apply]; [None] when a substitution raises. *)
Definition apply (self : t) (text : str) : option str :=
  match terms self, text with
  | [], _ | _, [] => Some text
  | _, _ =>
      match _find_matches_in_text self text with
      | [] => Some text
      | matches =>
          match apply_loop {| result := text; applied := [] |}
                           (sort_by_score matches) with
          | Some st => Some (result st)
          | None => None
          end
      end
  end.

(** Every entry of the cache is the phonetic form of its key.  [load] is the
    only writer of the cache, and writes such entries. *)
Definition cache_ok (self : Dictionary.t) : Prop :=
  Forall (fun entry => snd entry = _to_phonetic (fst entry)) (_phonetic_cache self).

(** The similarity of the design document: the better of the ratio of the
    phonetic forms and the ratio of the two inputs, each in lower case with
    its spaces removed. *)
Definition documented_similarity (text term : str) : float :=
  Float.max
    (_similarity (_to_phonetic text) (_to_phonetic term))
    (_similarity (remove_spaces (lower text)) (remove_spaces (lower term))).

(** Two spans are disjoint when the test of the loop says so. *)
Definition disjoint (a b : nat * nat) : Prop :=
  spans_overlap (fst a) (snd a) (fst b) (snd b) = false.

Definition pairwise_disjoint (spans : list (nat * nat)) : Prop :=
  ForallOrdPairs disjoint spans.

(** [x] is ranked no later than [y]: the key of [y] is not below that of
    [x], that is, the composite score of [y] is not above that of [x]. *)
Definition not_outranked_by (x y : candidate) : Prop :=
  PrimFloat.ltb (match_score y) (match_score x) = false.

End Dictionary.

(** ** [src/app.py]: keys *)

Module Keys.
Import Py.

(** The members of [pynput.keyboard.Key] the program names; [fkey n] is
    [Key.f<n>], and [other] stands for the members it never names. *)
Inductive special :=
| ctrl_l | ctrl_r | alt_l | alt_r | shift_l | shift_r
| space_key | enter | tab | esc | backspace | delete | insert
| home | end_key | page_up | page_down | up | down | left | right
| fkey (n : nat)
| other (name : nat).

(** A key as the listener reports it: a member of [Key], or a [KeyCode] with
    its virtual key code and its character, either of which may be [None]. *)
Inductive key :=
| Special (k : special)
| KeyCode (vk : option nat) (char : option ascii).

(** [KeyCode.from_char] *)
Definition from_char (c : ascii) : key := KeyCode None (Some c).

Definition special_eq_dec (a b : special) : {a = b} + {a <> b}.
Proof. decide equality; apply Nat.eq_dec. Defined.

Definition key_eq_dec (a b : key) : {a = b} + {a <> b}.
Proof.
  decide equality.
  - apply special_eq_dec.
  - decide equality. apply ascii_dec.
  - decide equality. apply Nat.eq_dec.
Defined.

(** [a == b] on normalized keys. *)
Definition key_eqb (a b : key) : bool := if key_eq_dec a b then true else false.

(** A set of keys. *)
Definition key_in (k : key) (s : list key) : bool := existsb (key_eqb k) s.
Definition key_add (k : key) (s : list key) : list key :=
  if key_in k s then s else s ++ [k].
Definition key_discard (k : key) (s : list key) : list key :=
  filter (fun x => negb (key_eqb k x)) s.
Definition issubset (a b : list key) : bool := forallb (fun k => key_in k b) a.

(** [_normalize_key] *)
Definition _normalize_key (k : key) : key :=
  match k with
  | Special ctrl_r => Special ctrl_l
  | Special shift_r => Special shift_l
  | Special alt_r => Special alt_l
  | Special _ => k
  | KeyCode _ (Some char) =>
      let char := if ord char <? 32 then ascii_of_nat (ord char + 97 - 1) else char in
      from_char (lower_char char)
  | KeyCode (Some vk) None =>
      if (65 <=? vk) && (vk <=? 90) then from_char (lower_char (ascii_of_nat vk))
      else k
  | KeyCode None None => k
  end.

(** The table [key_map]. *)
Definition key_map : list (string * special) :=
  [ ("ctrl", ctrl_l); ("control", ctrl_l); ("alt", alt_l); ("shift", shift_l);
    ("space", space_key); ("enter", enter); ("return", enter); ("tab", tab);
    ("escape", esc); ("esc", esc); ("backspace", backspace);
    ("delete", delete); ("del", delete); ("insert", insert);
    ("home", home); ("end", end_key); ("pageup", page_up);
    ("pagedown", page_down); ("up", up); ("down", down); ("left", left);
    ("right", right);
    ("f1", fkey 1); ("f2", fkey 2); ("f3", fkey 3); ("f4", fkey 4);
    ("f5", fkey 5); ("f6", fkey 6); ("f7", fkey 7); ("f8", fkey 8);
    ("f9", fkey 9); ("f10", fkey 10); ("f11", fkey 11); ("f12", fkey 12)
  ]%string.

Fixpoint lookup (table : list (string * special)) (name : str) : option special :=
  match table with
  | [] => None
  | (n, k) :: rest => if eqb_str (py n) name then Some k else lookup rest name
  end.

(** [_parse_key]: [None] is Python's [None]. *)
Definition _parse_key (key_str : str) : option key :=
  let key_str := lower (strip key_str) in
  match lookup key_map key_str with
  | Some k => Some (Special k)
  | None =>
      match key_str with
      | [c] => if isalnum c then Some (from_char (lower_char c)) else None
      | _ => None
      end
  end.

(** The loop of [_get_ptt_keys]: a part that parses is added to the set, one
    that does not is passed over. *)
Definition add_part (keys : list key) (part : str) : list key :=
  match _parse_key part with
  | Some k => key_add k keys
  | None => keys
  end.

Definition plus : ascii := "+"%char.

(** [_get_ptt_keys] *)
Definition _get_ptt_keys (shortcut_ptt : str) : list key :=
  match fold_left add_part (split_on plus shortcut_ptt) [] with
  | [] => [Special ctrl_l; Special alt_l]
  | keys => keys
  end.

(** [_get_lock_key] *)
Definition _get_lock_key (shortcut_lock : str) : key :=
  match _parse_key shortcut_lock with
  | Some k => k
  | None => Special space_key
  end.

(** [_get_cancel_key] *)
Definition _get_cancel_key (shortcut_cancel : str) : key :=
  match _parse_key shortcut_cancel with
  | Some k => k
  | None => Special esc
  end.

(** The parser as the design document words it: an unknown token makes the
    parse fail with [UnknownKey]; an empty set of keys gives the default. *)
Inductive parse_result :=
| Combo (keys : list key)
| UnknownKey.

Definition documented_parse (default : list key) (shortcut : str) : parse_result :=
  let parts := split_on plus shortcut in
  if existsb (fun part => match _parse_key part with None => true | Some _ => false end)
             parts
  then UnknownKey
  else match fold_left add_part parts [] with
       | [] => Combo default
       | keys => Combo keys
       end.

End Keys.

(** ** [src/app.py] and [src/recorder.py]: the recording state machine

    The handlers run on the listener thread, [_process_recording] on a thread
    of its own.  A handler is a function from the application's fields to the
    new fields and the calls it made to its collaborators, in order.  The
    background thread is an event of its own ([Thread_runs]): it is spawned
    by [_stop_recording] and runs later, between two key events. *)

Module App.
Import Py Keys.

Inductive icon := Idle_icon | Recording_icon | Locked_icon | Processing_icon.

Inductive message :=
| Msg_recording | Msg_locked | Msg_cancelled
| Msg_no_audio | Msg_no_speech | Msg_error.

(** A call to a collaborator. A path is the number of a temporary file. *)
Inductive effect :=
| Play_start
| Play_stop
| Recorder_start
| Recorder_stop (audio_path : option nat)
| Remove_file (path : nat)
| Tray (state : icon)
| Thread_start
| Transcribe (path : nat)
| Dictionary_apply (text : str)
| Scrubber_scrub (text : str)
| Stats_record (text : str)
| Type_text (text : str)
| Print (msg : message).

(** [AudioRecorder]: its flag, and how many chunks the callback has stored. *)
Record AudioRecorder := { recording : bool; audio_data : nat }.

(** The fields of [FreeVoice], with the number of spawned threads that have
    not run yet and the number of temporary files made so far. *)
Record app := {
  shortcut_ptt : str;
  shortcut_lock : str;
  shortcut_cancel : str;
  sounds_enabled : bool;
  tray_icon : bool;
  dictionary : Dictionary.t;
  scrubber : Scrubber.t;
  recorder : AudioRecorder;
  is_recording : bool;
  is_locked : bool;
  is_processing : bool;
  _pressed_keys : list key;
  _ptt_was_pressed : bool;
  _last_transcript : str;
  threads : nat;
  files : nat
}.

Definition set_recorder (r : AudioRecorder) (a : app) : app :=
  {| shortcut_ptt := shortcut_ptt a; shortcut_lock := shortcut_lock a;
     shortcut_cancel := shortcut_cancel a; sounds_enabled := sounds_enabled a;
     tray_icon := tray_icon a; dictionary := dictionary a; scrubber := scrubber a;
     recorder := r;
     is_recording := is_recording a; is_locked := is_locked a;
     is_processing := is_processing a; _pressed_keys := _pressed_keys a;
     _ptt_was_pressed := _ptt_was_pressed a; _last_transcript := _last_transcript a;
     threads := threads a; files := files a |}.

Definition set_is_recording (b : bool) (a : app) : app :=
  {| shortcut_ptt := shortcut_ptt a; shortcut_lock := shortcut_lock a;
     shortcut_cancel := shortcut_cancel a; sounds_enabled := sounds_enabled a;
     tray_icon := tray_icon a; dictionary := dictionary a; scrubber := scrubber a;
     recorder := recorder a;
     is_recording := b; is_locked := is_locked a;
     is_processing := is_processing a; _pressed_keys := _pressed_keys a;
     _ptt_was_pressed := _ptt_was_pressed a; _last_transcript := _last_transcript a;
     threads := threads a; files := files a |}.

Definition set_is_locked (b : bool) (a : app) : app :=
  {| shortcut_ptt := shortcut_ptt a; shortcut_lock := shortcut_lock a;
     shortcut_cancel := shortcut_cancel a; sounds_enabled := sounds_enabled a;
     tray_icon := tray_icon a; dictionary := dictionary a; scrubber := scrubber a;
     recorder := recorder a;
     is_recording := is_recording a; is_locked := b;
     is_processing := is_processing a; _pressed_keys := _pressed_keys a;
     _ptt_was_pressed := _ptt_was_pressed a; _last_transcript := _last_transcript a;
     threads := threads a; files := files a |}.

Definition set_is_processing (b : bool) (a : app) : app :=
  {| shortcut_ptt := shortcut_ptt a; shortcut_lock := shortcut_lock a;
     shortcut_cancel := shortcut_cancel a; sounds_enabled := sounds_enabled a;
     tray_icon := tray_icon a; dictionary := dictionary a; scrubber := scrubber a;
     recorder := recorder a;
     is_recording := is_recording a; is_locked := is_locked a;
     is_processing := b; _pressed_keys := _pressed_keys a;
     _ptt_was_pressed := _ptt_was_pressed a; _last_transcript := _last_transcript a;
     threads := threads a; files := files a |}.

Definition set_pressed_keys (s : list key) (a : app) : app :=
  {| shortcut_ptt := shortcut_ptt a; shortcut_lock := shortcut_lock a;
     shortcut_cancel := shortcut_cancel a; sounds_enabled := sounds_enabled a;
     tray_icon := tray_icon a; dictionary := dictionary a; scrubber := scrubber a;
     recorder := recorder a;
     is_recording := is_recording a; is_locked := is_locked a;
     is_processing := is_processing a; _pressed_keys := s;
     _ptt_was_pressed := _ptt_was_pressed a; _last_transcript := _last_transcript a;
     threads := threads a; files := files a |}.

Definition set_ptt_was_pressed (b : bool) (a : app) : app :=
  {| shortcut_ptt := shortcut_ptt a; shortcut_lock := shortcut_lock a;
     shortcut_cancel := shortcut_cancel a; sounds_enabled := sounds_enabled a;
     tray_icon := tray_icon a; dictionary := dictionary a; scrubber := scrubber a;
     recorder := recorder a;
     is_recording := is_recording a; is_locked := is_locked a;
     is_processing := is_processing a; _pressed_keys := _pressed_keys a;
     _ptt_was_pressed := b; _last_transcript := _last_transcript a;
     threads := threads a; files := files a |}.

Definition set_last_transcript (t : str) (a : app) : app :=
  {| shortcut_ptt := shortcut_ptt a; shortcut_lock := shortcut_lock a;
     shortcut_cancel := shortcut_cancel a; sounds_enabled := sounds_enabled a;
     tray_icon := tray_icon a; dictionary := dictionary a; scrubber := scrubber a;
     recorder := recorder a;
     is_recording := is_recording a; is_locked := is_locked a;
     is_processing := is_processing a; _pressed_keys := _pressed_keys a;
     _ptt_was_pressed := _ptt_was_pressed a; _last_transcript := t;
     threads := threads a; files := files a |}.

Definition set_threads (n : nat) (a : app) : app :=
  {| shortcut_ptt := shortcut_ptt a; shortcut_lock := shortcut_lock a;
     shortcut_cancel := shortcut_cancel a; sounds_enabled := sounds_enabled a;
     tray_icon := tray_icon a; dictionary := dictionary a; scrubber := scrubber a;
     recorder := recorder a;
     is_recording := is_recording a; is_locked := is_locked a;
     is_processing := is_processing a; _pressed_keys := _pressed_keys a;
     _ptt_was_pressed := _ptt_was_pressed a; _last_transcript := _last_transcript a;
     threads := n; files := files a |}.

Definition set_files (n : nat) (a : app) : app :=
  {| shortcut_ptt := shortcut_ptt a; shortcut_lock := shortcut_lock a;
     shortcut_cancel := shortcut_cancel a; sounds_enabled := sounds_enabled a;
     tray_icon := tray_icon a; dictionary := dictionary a; scrubber := scrubber a;
     recorder := recorder a;
     is_recording := is_recording a; is_locked := is_locked a;
     is_processing := is_processing a; _pressed_keys := _pressed_keys a;
     _ptt_was_pressed := _ptt_was_pressed a; _last_transcript := _last_transcript a;
     threads := threads a; files := n |}.

(** *** The monad of the handlers: state and a log of calls *)

Definition M (A : Type) : Type := app -> A * app * list effect.

Definition ret {A} (x : A) : M A := fun a => (x, a, []).

Definition bind {A B} (c : M A) (k : A -> M B) : M B :=
  fun a =>
    let '(x, a1, e1) := c a in
    let '(y, a2, e2) := k x a1 in
    (y, a2, e1 ++ e2).

Definition get : M app := fun a => (a, a, []).
Definition modify (f : app -> app) : M unit := fun a => (tt, f a, []).
Definition emit (e : effect) : M unit := fun a => (tt, a, [e]).
Definition when (b : bool) (c : M unit) : M unit := if b then c else ret tt.

Declare Scope handler_scope.
Delimit Scope handler_scope with handler.
Notation "x <- c ;; k" := (bind c (fun x => k))
  (at level 61, c at next level, right associativity) : handler_scope.
Notation "c ;; k" := (bind c (fun _ => k))
  (at level 61, right associativity) : handler_scope.
Local Open Scope handler_scope.

(** The state a handler leaves, and the calls it made. *)
Definition state_after {A} (c : M A) (a : app) : app := snd (fst (c a)).
Definition calls {A} (c : M A) (a : app) : list effect := snd (c a).

(** *** The collaborators *)

(** [AudioRecorder.start] *)
Definition recorder_start : M unit :=
  modify (set_recorder {| recording := true; audio_data := 0 |}) ;;
  emit Recorder_start.

(** [AudioRecorder._audio_callback] *)
Definition _audio_callback : M unit :=
  self <- get ;;
  when (recording (recorder self))
       (modify (set_recorder {| recording := true;
                                audio_data := S (audio_data (recorder self)) |})).

(** [AudioRecorder.stop]: [None] when nothing was stored, else the path of a
    new temporary file. *)
Definition recorder_stop : M (option nat) :=
  self <- get ;;
  modify (set_recorder {| recording := false;
                          audio_data := audio_data (recorder self) |}) ;;
  match audio_data (recorder self) with
  | 0 => emit (Recorder_stop None) ;; ret None
  | S _ =>
      let temp_path := files self in
      modify (set_files (S temp_path)) ;;
      emit (Recorder_stop (Some temp_path)) ;;
      ret (Some temp_path)
  end.

(** [_update_tray_icon] *)
Definition _update_tray_icon (state : icon) : M unit :=
  self <- get ;;
  when (tray_icon self) (emit (Tray state)).

(** *** The handlers *)

(** [_is_ptt_pressed] *)
Definition _is_ptt_pressed (self : app) : bool :=
  issubset (_get_ptt_keys (shortcut_ptt self)) (_pressed_keys self).

(** [_lock_recording] *)
Definition _lock_recording : M unit :=
  modify (set_is_locked true) ;;
  _update_tray_icon Locked_icon ;;
  emit (Print Msg_locked).

(** [_start_recording] *)
Definition _start_recording : M unit :=
  self <- get ;;
  if is_recording self then ret tt
  else
    modify (set_is_recording true) ;;
    modify (set_is_locked false) ;;
    when (sounds_enabled self) (emit Play_start) ;;
    recorder_start ;;
    _update_tray_icon Recording_icon ;;
    emit (Print Msg_recording).

(** [_stop_recording] *)
Definition _stop_recording : M unit :=
  self <- get ;;
  if negb (is_recording self) then ret tt
  else
    modify (set_is_recording false) ;;
    modify (set_is_locked false) ;;
    modify (set_is_processing true) ;;
    when (sounds_enabled self) (emit Play_stop) ;;
    _update_tray_icon Processing_icon ;;
    modify (set_threads (S (threads self))) ;;
    emit Thread_start.

(** [_cancel_recording] *)
Definition _cancel_recording : M unit :=
  self <- get ;;
  if negb (is_recording self) then ret tt
  else
    emit (Print Msg_cancelled) ;;
    modify (set_is_recording false) ;;
    modify (set_is_locked false) ;;
    audio_path <- recorder_stop ;;
    match audio_path with
    | Some path => emit (Remove_file path)
    | None => ret tt
    end ;;
    _update_tray_icon Idle_icon.

(** [_process_recording], the body of the background thread.  [transcribed]
    is what the recognizer answers when it is asked: a text, or [None] when it
    raises. *)
Definition _process_recording (transcribed : option str) : M unit :=
  audio_path <- recorder_stop ;;
  match audio_path with
  | Some path =>
      emit (Transcribe path) ;;
      match transcribed with
      | None => emit (Print Msg_error)
      | Some [] => emit (Print Msg_no_speech)
      | Some text =>
          self <- get ;;
          emit (Dictionary_apply text) ;;
          match Dictionary.apply (dictionary self) text with
          | None => emit (Print Msg_error)
          | Some text =>
              emit (Scrubber_scrub text) ;;
              let text := Scrubber.scrub (scrubber self) text in
              modify (set_last_transcript text) ;;
              emit (Stats_record text) ;;
              emit (Type_text text)
          end
      end
  | None => emit (Print Msg_no_audio)
  end ;;
  (* finally *)
  modify (set_is_processing false) ;;
  _update_tray_icon Idle_icon.

(** [_on_key_press] *)
Definition _on_key_press (key : key) : M unit :=
  let key := _normalize_key key in
  self <- get ;;
  modify (set_pressed_keys (key_add key (_pressed_keys self))) ;;
  if key_eqb key (_get_cancel_key (shortcut_cancel self)) && is_recording self
  then _cancel_recording
  else
    self <- get ;;
    let ptt_pressed := _is_ptt_pressed self in
    if ptt_pressed
       && key_eqb key (_get_lock_key (shortcut_lock self))
       && is_recording self && negb (is_locked self)
    then _lock_recording
    else if ptt_pressed && is_locked self && negb (_ptt_was_pressed self)
    then _stop_recording
    else
      when (ptt_pressed && negb (is_recording self) && negb (is_processing self))
           _start_recording ;;
      modify (set_ptt_was_pressed ptt_pressed).

(** [_on_key_release] *)
Definition _on_key_release (key : key) : M unit :=
  let key := _normalize_key key in
  self <- get ;;
  let ptt_keys := _get_ptt_keys (shortcut_ptt self) in
  when (is_recording self && negb (is_locked self) && key_in key ptt_keys)
       _stop_recording ;;
  self <- get ;;
  modify (set_pressed_keys (key_discard key (_pressed_keys self))) ;;
  self <- get ;;
  modify (set_ptt_was_pressed (_is_ptt_pressed self)).

(** The application once the normalized key is in the set of held keys. *)
Definition pressed_with (key : key) (self : app) : app :=
  set_pressed_keys (key_add (_normalize_key key) (_pressed_keys self)) self.

(** The press of [key] gets as far as the test that guards
    [_start_recording]: it is not a cancel of a recording, the push-to-talk
    keys are held, and neither the lock nor the stop of a locked recording
    takes it. *)
Definition reaches_start (key : key) (self : app) : bool :=
  let k := _normalize_key key in
  let self1 := pressed_with key self in
  negb (key_eqb k (_get_cancel_key (shortcut_cancel self)) && is_recording self)
  && _is_ptt_pressed self1
  && negb (key_eqb k (_get_lock_key (shortcut_lock self))
           && is_recording self && negb (is_locked self))
  && negb (is_locked self && negb (_ptt_was_pressed self)).

(** The flags agree with one another and with the recorder: a recording is
    never in progress while the last one is processed, only a recording is
    locked, and the recorder runs only for the session that is recording or
    being processed. *)
Definition consistent (self : app) : bool :=
  negb (is_recording self && is_processing self)
  && (negb (is_locked self) || is_recording self)
  && (negb (recording (recorder self)) || is_recording self || is_processing self).

(** *** Runs *)

Inductive event :=
| Press (k : key)
| Release (k : key)
| Audio_chunk
| Thread_runs (transcribed : option str).

Definition step (e : event) : M unit :=
  match e with
  | Press k => _on_key_press k
  | Release k => _on_key_release k
  | Audio_chunk => _audio_callback
  | Thread_runs transcribed =>
      self <- get ;;
      match threads self with
      | 0 => ret tt
      | S n => modify (set_threads n) ;; _process_recording transcribed
      end
  end.

Fixpoint run (events : list event) : M unit :=
  match events with
  | [] => ret tt
  | e :: rest => step e ;; run rest
  end.

(** The application as [__init__] and [run] leave it, for the shortcuts and
    settings of a configuration. *)
Definition init (ptt lock cancel : str) (sounds : bool)
           (d : Dictionary.t) (s : Scrubber.t) : app :=
  {| shortcut_ptt := ptt; shortcut_lock := lock; shortcut_cancel := cancel;
     sounds_enabled := sounds; tray_icon := true;
     dictionary := d; scrubber := s;
     recorder := {| recording := false; audio_data := 0 |};
     is_recording := false; is_locked := false; is_processing := false;
     _pressed_keys := []; _ptt_was_pressed := false; _last_transcript := [];
     threads := 0; files := 0 |}.

(** The defaults of [_load_config]. *)
Definition default_app : app :=
  init (py "Ctrl+Alt") (py "Space") (py "Escape") true
       (Dictionary.load []) Scrubber._use_defaults.

(** The four states of the design, read off the three flags. *)
Inductive SessionState := Idle | Recording | Locked | Processing.

Definition session_state (a : app) : SessionState :=
  if is_recording a then (if is_locked a then Locked else Recording)
  else if is_processing a then Processing
  else Idle.

(** The calls of a cancelled recording: the recorder is stopped and its file,
    if there is one, removed. *)
Definition cancel_calls (self : app) : list effect :=
  Print Msg_cancelled
  :: match audio_data (recorder self) with
     | 0 => [Recorder_stop None]
     | S _ => [Recorder_stop (Some (files self)); Remove_file (files self)]
     end
  ++ (if tray_icon self then [Tray Idle_icon] else []).

(** The flags, the recorder and the background thread in step: the recorder
    runs exactly while a session is recording or waits to be processed, a
    session is not both, only a recording is locked, and the processing flag
    is up exactly while one spawned thread has not run. *)
Definition synchronized (self : app) : bool :=
  Bool.eqb (recording (recorder self)) (is_recording self || is_processing self)
  && negb (is_recording self && is_processing self)
  && (negb (is_locked self) || is_recording self)
  && Bool.eqb (is_processing self) (threads self =? 1)
  && (threads self <=? 1).

(** The calls that hand a text on: to the dictionary, the scrubber, the
    statistics and the keyboard. *)
Definition text_call (e : effect) : bool :=
  match e with
  | Dictionary_apply _ | Scrubber_scrub _ | Stats_record _ | Type_text _ => true
  | _ => false
  end.

End App.

(** ** [src/app.py]: the settings *)

Module Settings.
Import Py Keys App.

(** What [_load_config] reads in config.json of the fields modelled here
    (the model and the language are not): each entry may be missing.  The
    entries are taken to have the JSON type the program expects. *)
Record shortcuts_entry := {
  push_to_talk : option str;
  lock_key : option str;
  cancel : option str
}.

Record config_json := {
  sounds_enabled_entry : option bool;
  shortcuts_entry_of : option shortcuts_entry
}.

Inductive config_file :=
| No_file                       (* [os.path.exists] is false *)
| Unreadable                    (* opening or parsing the file raises *)
| Loaded (config : config_json).

(** [d.get(key, default)] *)
Definition get {A} (entry : option A) (default : A) : A :=
  match entry with Some v => v | None => default end.

(** [_load_config]: the defaults, overridden by what the file has; then the
    state, reset whatever it was; then the tray icon, forgotten. *)
Definition _load_config (file : config_file) (self : app) : app :=
  let config :=
    match file with
    | Loaded config => config
    | _ => {| sounds_enabled_entry := None; shortcuts_entry_of := None |}
    end in
  let shortcuts :=
    get (shortcuts_entry_of config)
        {| push_to_talk := None; lock_key := None; cancel := None |} in
  {| shortcut_ptt := get (push_to_talk shortcuts) (py "Ctrl+Alt");
     shortcut_lock := get (lock_key shortcuts) (py "Space");
     shortcut_cancel := get (cancel shortcuts) (py "Escape");
     sounds_enabled := get (sounds_enabled_entry config) true;
     tray_icon := false;
     dictionary := dictionary self;
     scrubber := scrubber self;
     recorder := recorder self;
     is_recording := false;
     is_locked := false;
     is_processing := false;
     _pressed_keys := [];
     _ptt_was_pressed := false;
     _last_transcript := [];
     threads := threads self;
     files := files self |}.

End Settings.


(** * Properties *)

Unset Implicit Arguments.

(** ** Strings *)

Section Strings.
Import Py.

Lemma eqb_char_eq (a b : ascii) : eqb_char a b = true <-> a = b.
Proof. unfold eqb_char. apply Ascii.eqb_eq. Qed.

Lemma eqb_str_eq (a b : str) : eqb_str a b = true <-> a = b.
Proof.
  revert b. induction a as [|x a IH]; intros [|y b]; simpl; split;
    try congruence; try reflexivity.
  - intros H. apply andb_true_iff in H as [Hx Ha].
    apply eqb_char_eq in Hx. apply IH in Ha. congruence.
  - intros H. injection H as -> ->. apply andb_true_iff. split.
    + now apply eqb_char_eq.
    + now apply IH.
Qed.

Lemma eqb_str_refl (a : str) : eqb_str a a = true.
Proof. now apply eqb_str_eq. Qed.

End Strings.

(** ** The scrubber *)

Section ScrubberFacts.
Import Py.

(** C3, as the code has it: with the scrubber enabled and the fillers
    ["um"; "uh"], scrubbing "Um, I think, uh, this works." gives
    "I think, this works.".  Each filler goes with the comma and the blanks
    that follow it; the comma after "think" comes before the filler "uh" and
    stays. *)
Theorem scrub_um_uh_example :
  Scrubber.scrub
    {| Scrubber.enabled := true; Scrubber.fillers := [py "um"; py "uh"] |}
    (py "Um, I think, uh, this works.")
  = py "I think, this works.".
Proof. vm_compute. reflexivity. Qed.

(** C3, as the design document has it, fails: the result is not
    "I think this works.". *)
Lemma scrub_um_uh_keeps_the_comma :
  Scrubber.scrub
    {| Scrubber.enabled := true; Scrubber.fillers := [py "um"; py "uh"] |}
    (py "Um, I think, uh, this works.")
  = py "I think, this works."
  /\ Scrubber.scrub
       {| Scrubber.enabled := true; Scrubber.fillers := [py "um"; py "uh"] |}
       (py "Um, I think, uh, this works.")
     <> py "I think this works.".
Proof.
  split.
  - vm_compute. reflexivity.
  - intros H. vm_compute in H. discriminate H.
Qed.

End ScrubberFacts.

(** ** Comparisons of floats

    The order of binary64 floats, read through the specification of the
    primitive comparisons: [<=] is transitive, and [<] is asymmetric. *)

Section FloatFacts.

Lemma SFleb_trans (a b c : spec_float) :
  SFleb a b = true -> SFleb b c = true -> SFleb a c = true.
Proof.
  unfold SFleb.
  destruct a as [sa|sa| |sa ma ea], b as [sb|sb| |sb mb eb], c as [sc|sc| |sc mc ec];
    simpl; try discriminate; try reflexivity;
    repeat match goal with s : bool |- _ => destruct s end;
    simpl; try discriminate; try reflexivity.
  all: rewrite ?Pos.compare_cont_spec; simpl.
  all: destruct (Z.compare_spec ea eb), (Z.compare_spec eb ec), (Z.compare_spec ea ec);
       try discriminate; try reflexivity; try lia; subst.
  all: try (destruct (Pos.compare_spec ma mb), (Pos.compare_spec mb mc),
              (Pos.compare_spec ma mc);
            simpl; try discriminate; try reflexivity; try lia).
Qed.

Lemma leb_trans (a b c : float) :
  PrimFloat.leb a b = true -> PrimFloat.leb b c = true -> PrimFloat.leb a c = true.
Proof. rewrite !leb_spec. apply SFleb_trans. Qed.

Lemma geb_trans (s a b : float) :
  Float.geb s a = true -> PrimFloat.leb b a = true -> Float.geb s b = true.
Proof. unfold Float.geb. intros H1 H2. exact (leb_trans _ _ _ H2 H1). Qed.

Lemma SFltb_asym (a b : spec_float) :
  SFltb a b = true -> SFltb b a = false.
Proof.
  unfold SFltb.
  destruct a as [sa|sa| |sa ma ea], b as [sb|sb| |sb mb eb];
    simpl; try discriminate; try reflexivity;
    repeat match goal with s : bool |- _ => destruct s end;
    simpl; try discriminate; try reflexivity.
  all: rewrite ?Pos.compare_cont_spec; simpl.
  all: destruct (Z.compare_spec ea eb), (Z.compare_spec eb ea);
       try discriminate; try reflexivity; try lia; subst.
  all: destruct (Pos.compare_spec ma mb), (Pos.compare_spec mb ma);
       simpl; try discriminate; try reflexivity; try lia.
Qed.

Lemma ltb_asym (a b : float) :
  PrimFloat.ltb a b = true -> PrimFloat.ltb b a = false.
Proof. rewrite !ltb_spec. apply SFltb_asym. Qed.

End FloatFacts.

(** ** The matcher: the loop of the matching blocks empties its stack *)

Section DifflibFacts.
Import Py Difflib.

Lemma row_within (usable : bool) (x : ascii) (i alo blo bhi c : nat) :
  alo + c <= i ->
  forall (bs : str) (j diag : nat) (j2len : list nat) (best : Match),
    Forall (fun v => v <= c) j2len -> diag <= c ->
    within alo (S i) best ->
    Forall (fun v => v <= S c) (fst (row usable x i blo bhi j diag bs j2len best))
    /\ within alo (S i) (snd (row usable x i blo bhi j diag bs j2len best)).
Proof.
  intros Hc. induction bs as [|y bs IH]; intros j diag j2len best Hrow Hdiag Hbest;
    simpl.
  - split; [constructor|exact Hbest].
  - assert (Hhere : hd 0 j2len <= c).
    { destruct Hrow; simpl; [lia|assumption]. }
    assert (Htl : Forall (fun v => v <= c) (tl j2len)).
    { destruct Hrow; simpl; [constructor|assumption]. }
    destruct (usable && (blo <=? j) && (j <? bhi) && eqb_char x y).
    + set (best' := if m_size best <? S diag
                    then {| m_a := i + 1 - S diag; m_b := j + 1 - S diag;
                            m_size := S diag |}
                    else best).
      assert (Hbest' : within alo (S i) best').
      { unfold best'. destruct (m_size best <? S diag); [|exact Hbest].
        unfold within; simpl. lia. }
      specialize (IH (S j) (hd 0 j2len) (tl j2len) best' Htl Hhere Hbest').
      destruct (row usable x i blo bhi (S j) (hd 0 j2len) bs (tl j2len) best')
        as [r res]. simpl in *. destruct IH as [IH1 IH2].
      split; [constructor; [lia|exact IH1]|exact IH2].
    + specialize (IH (S j) (hd 0 j2len) (tl j2len) best Htl Hhere Hbest).
      destruct (row usable x i blo bhi (S j) (hd 0 j2len) bs (tl j2len) best)
        as [r res]. simpl in *. destruct IH as [IH1 IH2].
      split; [constructor; [lia|exact IH1]|exact IH2].
Qed.

Lemma within_le (alo hi hi' : nat) (m : Match) :
  hi <= hi' -> within alo hi m -> within alo hi' m.
Proof. unfold within. lia. Qed.

Lemma rows_within (b : str) (alo blo bhi : nat) :
  forall (n i : nat) (rest : str) (j2len : list nat) (best : Match),
    alo <= i ->
    Forall (fun v => v <= i - alo) j2len ->
    within alo i best ->
    within alo (i + n) (rows b blo bhi i n rest j2len best).
Proof.
  induction n as [|n IH]; intros i rest j2len best Hi Hrow Hbest; simpl.
  - rewrite Nat.add_0_r. exact Hbest.
  - destruct rest as [|x rest]; [apply (within_le alo i); [lia|exact Hbest]|].
    pose proof (row_within (negb (popular b x)) x i alo blo bhi (i - alo)
                  ltac:(lia) b 0 0 j2len best Hrow ltac:(lia)
                  (within_le alo i (S i) best ltac:(lia) Hbest)) as [H1 H2].
    destruct (row (negb (popular b x)) x i blo bhi 0 0 b j2len best) as [r best'].
    simpl in *. replace (i + S n) with (S i + n) by lia.
    apply IH; [lia| |exact H2].
    replace (S i - alo) with (S (i - alo)) by lia. exact H1.
Qed.

Lemma extend_left_within (a b : str) (alo blo hi : nat) :
  forall (fuel : nat) (m : Match),
    within alo hi m -> within alo hi (extend_left a b alo blo fuel m).
Proof.
  induction fuel as [|fuel IH]; intros m Hm; simpl; [exact Hm|].
  destruct ((alo <? m_a m) && (blo <? m_b m) && _) eqn:E; [|exact Hm].
  apply IH. apply andb_true_iff in E as [E _]. apply andb_true_iff in E as [E _].
  apply Nat.ltb_lt in E. unfold within in *; simpl. lia.
Qed.

Lemma extend_right_within (a b : str) (alo ahi bhi : nat) :
  forall (fuel : nat) (m : Match),
    within alo ahi m -> within alo ahi (extend_right a b ahi bhi fuel m).
Proof.
  induction fuel as [|fuel IH]; intros m Hm; simpl; [exact Hm|].
  destruct ((m_a m + m_size m <? ahi) && (m_b m + m_size m <? bhi) && _) eqn:E;
    [|exact Hm].
  apply IH. apply andb_true_iff in E as [E _]. apply andb_true_iff in E as [E _].
  apply Nat.ltb_lt in E. unfold within in *; simpl. lia.
Qed.

(** The two extension loops are given passes enough: more change nothing. *)
Lemma extend_left_enough (a b : str) (alo blo : nat) :
  forall (fuel fuel' : nat) (m : Match),
    m_a m - alo <= fuel -> m_a m - alo <= fuel' ->
    extend_left a b alo blo fuel m = extend_left a b alo blo fuel' m.
Proof.
  induction fuel as [|fuel IH]; intros fuel' m H1 H2.
  - destruct fuel' as [|fuel']; [reflexivity|]. simpl.
    destruct (alo <? m_a m) eqn:E; [|reflexivity].
    apply Nat.ltb_lt in E. lia.
  - destruct fuel' as [|fuel']; simpl.
    + destruct (alo <? m_a m) eqn:E; [|reflexivity].
      apply Nat.ltb_lt in E. lia.
    + destruct ((alo <? m_a m) && (blo <? m_b m) && _) eqn:E; [|reflexivity].
      apply IH; simpl; lia.
Qed.

Lemma extend_right_enough (a b : str) (ahi bhi : nat) :
  forall (fuel fuel' : nat) (m : Match),
    ahi - (m_a m + m_size m) <= fuel -> ahi - (m_a m + m_size m) <= fuel' ->
    extend_right a b ahi bhi fuel m = extend_right a b ahi bhi fuel' m.
Proof.
  induction fuel as [|fuel IH]; intros fuel' m H1 H2.
  - destruct fuel' as [|fuel']; [reflexivity|]. simpl.
    destruct (m_a m + m_size m <? ahi) eqn:E; [|reflexivity].
    apply Nat.ltb_lt in E. lia.
  - destruct fuel' as [|fuel']; simpl.
    + destruct (m_a m + m_size m <? ahi) eqn:E; [|reflexivity].
      apply Nat.ltb_lt in E. lia.
    + destruct ((m_a m + m_size m <? ahi) && (m_b m + m_size m <? bhi) && _) eqn:E;
        [|reflexivity].
      apply IH; simpl; lia.
Qed.

Lemma find_longest_match_within (a b : str) (alo ahi blo bhi : nat) :
  alo <= ahi ->
  within alo ahi (find_longest_match a b alo ahi blo bhi).
Proof.
  intros H. unfold find_longest_match.
  apply extend_right_within, extend_left_within.
  replace ahi with (alo + (ahi - alo)) at 1 by lia.
  apply rows_within; [lia|constructor|unfold within; simpl; lia].
Qed.

(** With enough passes for the work left, more passes change nothing: the
    loop ends because the stack is empty. *)
Lemma blocks_loop_enough (a b : str) :
  forall (fuel fuel' : nat) (queue : list (nat * nat * nat * nat)) (acc : list Match),
    well_formed queue -> work queue <= fuel -> work queue <= fuel' ->
    blocks_loop a b fuel queue acc = blocks_loop a b fuel' queue acc.
Proof.
  induction fuel as [|fuel IH]; intros fuel' queue acc Hwf H1 H2.
  - destruct queue as [|[[[alo ahi] blo] bhi] rest]; simpl in H1; [|lia].
    now destruct fuel'.
  - destruct queue as [|[[[alo ahi] blo] bhi] rest]; [now destruct fuel'|].
    simpl in H1, H2. destruct fuel' as [|fuel']; [lia|].
    inversion Hwf as [|? ? Hr Hrest]; subst. simpl in Hr.
    pose proof (find_longest_match_within a b alo ahi blo bhi Hr) as [Hlo Hhi].
    simpl. destruct (m_size (find_longest_match a b alo ahi blo bhi) =? 0) eqn:Ek.
    + apply IH; [exact Hrest|lia|lia].
    + apply Nat.eqb_neq in Ek.
      set (x := find_longest_match a b alo ahi blo bhi) in *.
      destruct ((alo <? m_a x) && (blo <? m_b x)),
               ((m_a x + m_size x <? ahi) && (m_b x + m_size x <? bhi));
        apply IH; try (repeat constructor; simpl; try lia; exact Hrest);
        simpl; lia.
Qed.

(** The passes [get_matching_blocks] allows are enough. *)
Lemma get_matching_blocks_enough (a b : str) (more : nat) :
  blocks_loop a b (2 * len a + 1 + more) [(0, len a, 0, len b)] []
  = get_matching_blocks a b.
Proof.
  unfold get_matching_blocks. apply blocks_loop_enough.
  - repeat constructor. simpl. lia.
  - simpl. lia.
  - simpl. lia.
Qed.

End DifflibFacts.

(** ** The dictionary: similarity *)

Section SimilarityFacts.
Import Py Dictionary.

Lemma cache_ok_load (file_terms : list str) : cache_ok (load file_terms).
Proof.
  unfold cache_ok, load; simpl.
  induction file_terms as [|x rest IH]; simpl; constructor; auto.
Qed.

Lemma cache_get_ok (cache : list (str * str)) (term : str) :
  Forall (fun entry => snd entry = _to_phonetic (fst entry)) cache ->
  cache_get cache term (_to_phonetic term) = _to_phonetic term.
Proof.
  induction 1 as [|[k v] rest Hkv _ IH]; simpl; [reflexivity|].
  destruct (eqb_str k term) eqn:E; [|exact IH].
  apply eqb_str_eq in E. simpl in Hkv. congruence.
Qed.

(** C2, as the code has it: the similarity is the larger of (a) the ratio of
    the two phonetic forms and (b) the ratio of the text, in lower case with
    its spaces removed, and the term in lower case, its spaces kept. *)
Theorem phonetic_similarity_is_max (self : Dictionary.t) (text term : str) :
  cache_ok self ->
  _phonetic_similarity self text term
  = Float.max
      (_similarity (_to_phonetic text) (_to_phonetic term))
      (_similarity (remove_spaces (lower text)) (lower term)).
Proof.
  intros Hc. unfold _phonetic_similarity.
  rewrite (cache_get_ok _ term Hc). reflexivity.
Qed.

Lemma phonetic_similarity_is_max_witness :
  cache_ok (load [py "Mac Book"])
  /\ _phonetic_similarity (load [py "Mac Book"]) (py "Mac Bok") (py "Mac Book")
     = Float.max
         (_similarity (_to_phonetic (py "Mac Bok")) (_to_phonetic (py "Mac Book")))
         (_similarity (remove_spaces (lower (py "Mac Bok"))) (lower (py "Mac Book"))).
Proof.
  split.
  - apply cache_ok_load.
  - apply (phonetic_similarity_is_max (load [py "Mac Book"])).
    apply cache_ok_load.
Defined.

(** C2, as the design document has it, fails for a term with a space: for
    the term "Mac Book" and the text "Mac Bok" the code scores 12/14, the
    raw ratio of "macbok" and "mac book", where the document's formula gives
    12/13, the raw ratio of "macbok" and "macbook". *)
Lemma phonetic_similarity_keeps_term_spaces :
  _phonetic_similarity (load [py "Mac Book"]) (py "Mac Bok") (py "Mac Book")
  = (12 / 14)%float
  /\ documented_similarity (py "Mac Bok") (py "Mac Book") = (12 / 13)%float
  /\ _phonetic_similarity (load [py "Mac Book"]) (py "Mac Bok") (py "Mac Book")
     <> documented_similarity (py "Mac Bok") (py "Mac Book").
Proof.
  split; [|split].
  - vm_compute. reflexivity.
  - vm_compute. reflexivity.
  - intros H. vm_compute in H. discriminate H.
Qed.

End SimilarityFacts.

(** ** The dictionary: which windows are accepted *)

Section MatchFacts.
Import Py Dictionary.

Lemma window_match_spec (self : Dictionary.t) (text : str) (words : list str)
      (term : str) (window_size i : nat) (m : candidate) :
  window_match self text words term window_size i = Some m ->
  replacement m = term
  /\ similarity m = _phonetic_similarity self (original m) term
  /\ Float.geb (similarity m) (threshold_for (original m) term) = true.
Proof.
  unfold window_match.
  destruct (forallb _ _); [discriminate|].
  destruct (PrimFloat.ltb _ _); [discriminate|].
  destruct (Float.geb _ _) eqn:Hge; [|discriminate].
  destruct (find _ _); [|discriminate].
  intros H. injection H as <-. simpl. auto.
Qed.

Lemma window_match_span (self : Dictionary.t) (text : str) (words : list str)
      (term : str) (window_size i : nat) (m : candidate) :
  window_match self text words term window_size i = Some m ->
  find (lower text) (lower (original m)) = Some (start m)
  /\ end_ m = start m + len (original m).
Proof.
  unfold window_match.
  destruct (forallb _ _); [discriminate|].
  destruct (PrimFloat.ltb _ _); [discriminate|].
  destruct (Float.geb _ _); [|discriminate].
  destruct (find _ _) eqn:Hf; [|discriminate].
  intros H. injection H as <-. simpl. auto.
Qed.

Lemma in_find_matches (self : Dictionary.t) (text : str) (m : candidate) :
  In m (_find_matches_in_text self text) ->
  exists term window_size i,
    In term (terms self)
    /\ window_match self text (split text) term window_size i = Some m.
Proof.
  unfold _find_matches_in_text.
  destruct (split text) as [|w ws] eqn:Hw; [intros []|].
  destruct (terms self) as [|t ts] eqn:Ht; [intros []|].
  intros H. apply in_flat_map in H as (term & Hterm & H).
  unfold matches_for_term in H.
  apply in_flat_map in H as (window_size & _ & H).
  apply in_flat_map in H as (i & _ & H).
  exists term, window_size, i. split; [exact Hterm|].
  destruct (window_match _ _ _ _ _ _) as [m'|]; simpl in H.
  - destruct H as [->|[]]. reflexivity.
  - destruct H.
Qed.

(** The floors behind the threshold the loop computes. *)
Lemma threshold_floors (phrase term : str) (s : float) :
  Float.geb s (threshold_for phrase term) = true ->
  (len term <= 4 -> Float.geb s 0.90 = true)
  /\ (len term <= 6 -> Float.geb s 0.80 = true)
  /\ Float.geb s 0.75 = true
  /\ (List.length (split phrase) = 1 -> Float.geb s 0.85 = true)
  /\ (PrimFloat.ltb (Float.of_nat (len term) * 1.5)
                    (Float.of_nat (len (remove_spaces phrase))) = true ->
      Float.geb s 0.90 = true).
Proof.
  unfold threshold_for. intros H.
  destruct (len term <=? 4) eqn:E4; [apply Nat.leb_le in E4|apply Nat.leb_gt in E4];
  (destruct (len term <=? 6) eqn:E6; [apply Nat.leb_le in E6|apply Nat.leb_gt in E6]);
  (destruct (List.length (split phrase) =? 1) eqn:E1;
     [apply Nat.eqb_eq in E1|apply Nat.eqb_neq in E1]);
  destruct (PrimFloat.ltb _ _) eqn:El;
  repeat split; intros; try lia; try discriminate; try congruence;
  (eapply geb_trans; [exact H|vm_compute; reflexivity]).
Qed.

(** The test for a long window, [len(phrase) > len(term) * 1.5] in floats,
    is the test [2 * len(phrase) > 3 * len(term)] on the lengths: checked for
    every pair of lengths up to 300. *)
Lemma long_window_test_exact (term_len phrase_len : nat) :
  term_len <= 300 -> phrase_len <= 300 ->
  PrimFloat.ltb (Float.of_nat term_len * 1.5) (Float.of_nat phrase_len)
  = (3 * term_len <? 2 * phrase_len).
Proof.
  intros Ht Hp.
  assert (H : forallb
                (fun t => forallb
                            (fun n => Bool.eqb
                                        (PrimFloat.ltb (Float.of_nat t * 1.5)
                                                       (Float.of_nat n))
                                        (3 * t <? 2 * n))
                            (seq 0 301))
                (seq 0 301) = true).
  { vm_compute. reflexivity. }
  rewrite forallb_forall in H.
  specialize (H term_len ltac:(apply in_seq; lia)).
  rewrite forallb_forall in H.
  specialize (H phrase_len ltac:(apply in_seq; lia)).
  now apply Bool.eqb_prop in H.
Qed.

(** C4: a window is accepted only when its similarity reaches the floor of
    its term: 0.90 for a term of at most 4 characters, 0.80 for one of at most
    6, 0.75 otherwise; 0.85 besides for a window of a single word; and 0.90
    for a window whose length without spaces is more than 1.5 times the
    length of the term (the comparison the code makes in floats, which for
    lengths up to 300 is the comparison of the lengths themselves). *)
Theorem accepted_window_meets_threshold
        (self : Dictionary.t) (text : str) (m : candidate) :
  In m (_find_matches_in_text self text) ->
  similarity m = _phonetic_similarity self (original m) (replacement m)
  /\ (len (replacement m) <= 4 -> Float.geb (similarity m) 0.90 = true)
  /\ (len (replacement m) <= 6 -> Float.geb (similarity m) 0.80 = true)
  /\ Float.geb (similarity m) 0.75 = true
  /\ (List.length (split (original m)) = 1 -> Float.geb (similarity m) 0.85 = true)
  /\ (PrimFloat.ltb (Float.of_nat (len (replacement m)) * 1.5)
                    (Float.of_nat (len (remove_spaces (original m)))) = true ->
      Float.geb (similarity m) 0.90 = true)
  /\ (len (replacement m) <= 300 -> len (remove_spaces (original m)) <= 300 ->
      3 * len (replacement m) < 2 * len (remove_spaces (original m)) ->
      Float.geb (similarity m) 0.90 = true).
Proof.
  intros H. apply in_find_matches in H as (term & window_size & i & _ & H).
  apply window_match_spec in H as (-> & Hsim & Hge).
  split; [exact Hsim|].
  destruct (threshold_floors _ _ _ Hge) as (H4 & H6 & H0 & H1 & Hlong).
  repeat split; try assumption.
  intros Ht Hp Hlt. apply Hlong.
  rewrite long_window_test_exact by assumption. now apply Nat.ltb_lt.
Qed.

Lemma accepted_window_meets_threshold_witness :
  let m := {| original := py "get hub"; replacement := py "GitHub";
              similarity := (10 / 12)%float; start := 7; end_ := 14 |} in
  In m (_find_matches_in_text (load [py "GitHub"]) (py "I used get hub today"))
  /\ Float.geb (similarity m) 0.80 = true.
Proof.
  intros m.
  assert (H : In m (_find_matches_in_text (load [py "GitHub"])
                                          (py "I used get hub today"))).
  { vm_compute. left. reflexivity. }
  split; [exact H|].
  destruct (accepted_window_meets_threshold _ _ _ H) as (_ & _ & H6 & _).
  apply H6. vm_compute. repeat constructor.
Defined.

End MatchFacts.

(** ** The dictionary: the replacement loop *)

Section ApplyFacts.
Import Py Re Dictionary.

(** C10: with no terms, or on the empty text, [apply] returns its input; the
    search for matches has nothing to return either. *)
Theorem apply_identity_without_terms_or_text (self : Dictionary.t) (text : str) :
  terms self = [] \/ text = [] ->
  apply self text = Some text /\ _find_matches_in_text self text = [].
Proof.
  unfold apply, _find_matches_in_text.
  intros [H | H]; rewrite H.
  - split; [reflexivity|]. now destruct (split text).
  - split; [now destruct (terms self)|]. reflexivity.
Qed.

Lemma apply_identity_without_terms_or_text_witness :
  (terms (load []) = [] \/ py "I used get hub today" = [])
  /\ apply (load []) (py "I used get hub today") = Some (py "I used get hub today")
  /\ _find_matches_in_text (load []) (py "I used get hub today") = [].
Proof.
  assert (H : terms (load []) = [] \/ py "I used get hub today" = [])
    by (left; reflexivity).
  split; [exact H|].
  exact (apply_identity_without_terms_or_text (load []) (py "I used get hub today") H).
Defined.

Lemma same_as_term_spec (m : candidate) :
  same_as_term m = true <-> lower (original m) = lower (replacement m).
Proof. unfold same_as_term. apply eqb_str_eq. Qed.

Lemma contains_term_word_spec (m : candidate) :
  contains_term_word m = true
  <-> 1 < List.length (split (lower (original m)))
      /\ In (lower (replacement m)) (split (lower (original m))).
Proof.
  unfold contains_term_word. cbv zeta.
  rewrite andb_true_iff, Nat.ltb_lt, existsb_exists. split.
  - intros [H (word & Hin & Hw)]. apply eqb_str_eq in Hw. subst word. auto.
  - intros [H Hin]. split; [exact H|].
    exists (lower (replacement m)). split; [exact Hin|apply eqb_str_refl].
Qed.

Lemma decide_step_verbatim (st : state) (m : candidate) :
  same_as_term m = true \/ contains_term_word m = true ->
  decide_step st m = Skipped.
Proof.
  unfold decide_step. intros [H | H]; rewrite H.
  - reflexivity.
  - now destruct (same_as_term m).
Qed.

Lemma apply_step_verbatim (st : state) (m : candidate) :
  same_as_term m = true \/ contains_term_word m = true ->
  apply_step st m = Some st.
Proof. intros H. unfold apply_step. now rewrite (decide_step_verbatim st m H). Qed.

Lemma apply_loop_verbatim (st : state) (ms : list candidate) :
  Forall (fun m => same_as_term m = true \/ contains_term_word m = true) ms ->
  apply_loop st ms = Some st.
Proof.
  induction 1 as [|m rest Hm _ IH]; simpl; [reflexivity|].
  now rewrite (apply_step_verbatim st m Hm).
Qed.

Lemma spans_overlap_sym (s1 e1 s2 e2 : nat) :
  spans_overlap s1 e1 s2 e2 = spans_overlap s2 e2 s1 e1.
Proof. unfold spans_overlap. now rewrite orb_comm. Qed.

Lemma ForallOrdPairs_snoc {A} (R : A -> A -> Prop) (l : list A) (x : A) :
  ForallOrdPairs R l -> Forall (fun a => R a x) l -> ForallOrdPairs R (l ++ [x]).
Proof.
  induction 1 as [|a l Ha _ IH]; simpl; intros Hx.
  - constructor; constructor.
  - inversion Hx as [|? ? Hax Hlx]; subst. constructor.
    + apply Forall_app. split; [exact Ha|]. constructor; [exact Hax|constructor].
    + now apply IH.
Qed.

Lemma overlaps_applied_false (m : candidate) (spans : list (nat * nat)) :
  overlaps_applied m spans = false ->
  Forall (fun span => disjoint span (start m, end_ m)) spans.
Proof.
  unfold overlaps_applied. induction spans as [|sp rest IH]; simpl; intros H.
  - constructor.
  - apply orb_false_iff in H as [H1 H2]. constructor; [|now apply IH].
    unfold disjoint; simpl. now rewrite spans_overlap_sym.
Qed.

Lemma overlaps_applied_true (m : candidate) (spans : list (nat * nat)) (sp : nat * nat) :
  In sp spans ->
  spans_overlap (start m) (end_ m) (fst sp) (snd sp) = true ->
  overlaps_applied m spans = true.
Proof.
  intros Hin Hov. unfold overlaps_applied. apply existsb_exists.
  exists sp. split; assumption.
Qed.

Lemma overlaps_applied_spec (m : candidate) (spans : list (nat * nat)) :
  overlaps_applied m spans = false
  <-> forall sp, In sp spans ->
                 spans_overlap (start m) (end_ m) (fst sp) (snd sp) = false.
Proof.
  unfold overlaps_applied. split.
  - intros H sp Hin.
    destruct (spans_overlap _ _ _ _) eqn:E; [|reflexivity].
    assert (Ht : existsb
                   (fun span => spans_overlap (start m) (end_ m) (fst span) (snd span))
                   spans = true)
      by (apply existsb_exists; exists sp; split; assumption).
    rewrite Ht in H. discriminate.
  - intros H.
    destruct (existsb _ spans) eqn:E; [|reflexivity].
    apply existsb_exists in E as (sp & Hin & Hov).
    rewrite (H sp Hin) in Hov. discriminate.
Qed.

(** What a pass that commits has checked, and nothing else makes it commit. *)
Lemma decide_step_committed (st : state) (m : candidate) (new_result : str) :
  decide_step st m = Committed new_result
  <-> same_as_term m = false
      /\ contains_term_word m = false
      /\ overlaps_applied m (applied st) = false
      /\ exists template,
           parse_template (replacement m) = Some template
           /\ new_result
              = sub_first_ci (original m) (expand_template template) (result st)
           /\ new_result <> result st.
Proof.
  unfold decide_step. split.
  - destruct (same_as_term m); [discriminate|].
    destruct (contains_term_word m); [discriminate|].
    destruct (overlaps_applied m (applied st)); [discriminate|].
    destruct (parse_template (replacement m)) as [template|]; [|discriminate].
    destruct (eqb_str _ _) eqn:E; [discriminate|].
    intros H. injection H as <-. repeat split.
    exists template. repeat split.
    intros Heq. rewrite Heq, eqb_str_refl in E. discriminate.
  - intros (-> & -> & -> & template & -> & -> & Hne).
    destruct (eqb_str _ _) eqn:E; [|reflexivity].
    apply eqb_str_eq in E. contradiction.
Qed.

Lemma apply_step_cases (st st' : state) (m : candidate) :
  apply_step st m = Some st' ->
  (decide_step st m = Skipped /\ st' = st)
  \/ exists new_result,
       decide_step st m = Committed new_result
       /\ st' = {| result := new_result;
                   applied := applied st ++ [span_of m] |}.
Proof.
  unfold apply_step. destruct (decide_step st m) eqn:E; intros H.
  - left. split; [reflexivity|congruence].
  - right. exists new_result. split; [reflexivity|]. unfold span_of. congruence.
  - discriminate.
Qed.

Lemma apply_step_disjoint (st st' : state) (m : candidate) :
  apply_step st m = Some st' ->
  pairwise_disjoint (applied st) -> pairwise_disjoint (applied st').
Proof.
  intros H Hd. apply apply_step_cases in H as [[_ ->] | (r & Hc & ->)]; [exact Hd|].
  simpl. apply decide_step_committed in Hc as (_ & _ & Hov & _).
  apply ForallOrdPairs_snoc; [exact Hd|]. now apply overlaps_applied_false.
Qed.

Lemma apply_step_keeps (st st' : state) (m : candidate) (sp : nat * nat) :
  apply_step st m = Some st' -> In sp (applied st) -> In sp (applied st').
Proof.
  intros H Hin. apply apply_step_cases in H as [[_ ->] | (r & _ & ->)]; [exact Hin|].
  simpl. apply in_or_app. now left.
Qed.

Lemma apply_loop_keeps (ms : list candidate) (st st' : state) (sp : nat * nat) :
  apply_loop st ms = Some st' -> In sp (applied st) -> In sp (applied st').
Proof.
  revert st. induction ms as [|m rest IH]; simpl; intros st H Hin.
  - congruence.
  - destruct (apply_step st m) as [st1|] eqn:E; [|discriminate].
    apply (IH st1 H). exact (apply_step_keeps _ _ _ _ E Hin).
Qed.

Lemma apply_loop_app (xs ys : list candidate) (st : state) :
  apply_loop st (xs ++ ys)
  = match apply_loop st xs with
    | Some st' => apply_loop st' ys
    | None => None
    end.
Proof.
  revert st. induction xs as [|x xs IH]; intros st; simpl; [reflexivity|].
  destruct (apply_step st x); [apply IH|reflexivity].
Qed.

(** The spans the loop has recorded are those of the candidates it has
    committed, in their order. *)
Lemma applied_committed (ms : list candidate) (st st' : state) :
  apply_loop st ms = Some st' ->
  applied st' = applied st ++ map span_of (committed st ms).
Proof.
  revert st. induction ms as [|m rest IH]; simpl; intros st H.
  - injection H as <-. now rewrite app_nil_r.
  - destruct (apply_step st m) as [st1|] eqn:E; [|discriminate].
    rewrite (IH st1 H).
    apply apply_step_cases in E as [[-> ->] | (r & -> & ->)]; [reflexivity|].
    simpl. now rewrite <- app_assoc.
Qed.

Lemma committed_snoc (ms : list candidate) (m : candidate) (st st' : state) :
  apply_loop st ms = Some st' ->
  committed st (ms ++ [m])
  = committed st ms
    ++ match decide_step st' m with Committed _ => [m] | Skipped | Raised => [] end.
Proof.
  revert st. induction ms as [|x rest IH]; simpl; intros st H.
  - injection H as <-. unfold apply_step.
    destruct (decide_step st m); reflexivity.
  - destruct (apply_step st x) as [st1|] eqn:E; [|discriminate].
    rewrite (IH st1 H). now destruct (decide_step st x).
Qed.

(** The spans of the committed candidates never overlap, also when the loop
    is cut short by an exception. *)
Lemma committed_disjoint (ms : list candidate) (st : state) :
  pairwise_disjoint (applied st) ->
  pairwise_disjoint (applied st ++ map span_of (committed st ms)).
Proof.
  revert st. induction ms as [|m rest IH]; simpl; intros st Hd.
  - now rewrite app_nil_r.
  - destruct (apply_step st m) as [st1|] eqn:E; [|now rewrite app_nil_r].
    pose proof (apply_step_disjoint _ _ _ E Hd) as Hd1.
    specialize (IH st1 Hd1).
    apply apply_step_cases in E as [[-> ->] | (r & -> & ->)]; [exact IH|].
    simpl in *. now rewrite <- app_assoc in IH.
Qed.

(** Once a candidate is committed, a later one that overlaps it is skipped. *)
Lemma later_overlapping_is_skipped
      (st1 st2 : state) (m1 m2 : candidate) (between : list candidate)
      (new_result : str) :
  decide_step st1 m1 = Committed new_result ->
  apply_loop st1 (m1 :: between) = Some st2 ->
  spans_overlap (start m1) (end_ m1) (start m2) (end_ m2) = true ->
  decide_step st2 m2 = Skipped.
Proof.
  intros Hc Hloop Hov. simpl in Hloop. unfold apply_step in Hloop. rewrite Hc in Hloop.
  assert (Hin : In (start m1, end_ m1) (applied st2)).
  { apply (apply_loop_keeps _ _ _ _ Hloop). simpl. apply in_or_app. right. now left. }
  assert (Ho : overlaps_applied m2 (applied st2) = true).
  { apply (overlaps_applied_true _ _ _ Hin). simpl. now rewrite spans_overlap_sym. }
  unfold decide_step. rewrite Ho.
  now destruct (same_as_term m2), (contains_term_word m2).
Qed.

Lemma insert_by_score_perm (x : candidate) (sorted : list candidate) :
  Permutation (x :: sorted) (insert_by_score x sorted).
Proof.
  induction sorted as [|y rest IH]; simpl; [reflexivity|].
  destruct (PrimFloat.ltb _ _); [reflexivity|].
  rewrite perm_swap. now apply perm_skip.
Qed.

Lemma insert_by_score_hd (x y : candidate) (rest : list candidate) :
  not_outranked_by y x -> HdRel not_outranked_by y rest ->
  HdRel not_outranked_by y (insert_by_score x rest).
Proof.
  intros Hyx Hrest. destruct rest as [|z rest]; simpl.
  - now constructor.
  - destruct (PrimFloat.ltb _ _); constructor; [exact Hyx|].
    now inversion Hrest.
Qed.

Lemma insert_by_score_sorted (x : candidate) (sorted : list candidate) :
  Sorted not_outranked_by sorted -> Sorted not_outranked_by (insert_by_score x sorted).
Proof.
  induction 1 as [|y rest Hs IH Hhd]; simpl.
  - repeat constructor.
  - destruct (PrimFloat.ltb (match_score x) (match_score y)) eqn:E.
    + constructor; [now constructor|]. constructor.
      unfold not_outranked_by. now apply ltb_asym.
    + constructor; [exact IH|]. now apply insert_by_score_hd.
Qed.

Lemma fold_insert_perm (ms acc : list candidate) :
  Permutation (ms ++ acc) (fold_left (fun acc x => insert_by_score x acc) ms acc).
Proof.
  revert acc. induction ms as [|m rest IH]; intros acc; simpl; [reflexivity|].
  rewrite <- IH. rewrite <- insert_by_score_perm.
  apply Permutation_middle.
Qed.

Lemma fold_insert_sorted (ms acc : list candidate) :
  Sorted not_outranked_by acc ->
  Sorted not_outranked_by (fold_left (fun acc x => insert_by_score x acc) ms acc).
Proof.
  revert acc. induction ms as [|m rest IH]; intros acc H; simpl; [exact H|].
  apply IH. now apply insert_by_score_sorted.
Qed.

Lemma sort_by_score_perm (ms : list candidate) : Permutation ms (sort_by_score ms).
Proof.
  unfold sort_by_score. rewrite <- fold_insert_perm. now rewrite app_nil_r.
Qed.

Lemma sort_by_score_sorted (ms : list candidate) :
  Sorted not_outranked_by (sort_by_score ms).
Proof. apply fold_insert_sorted. constructor. Qed.

Lemma not_true_iff (b : bool) (P : Prop) : (b = true <-> P) -> (b = false <-> ~ P).
Proof.
  intros H. destruct b; split; intros H'; try reflexivity; try discriminate.
  - exfalso. apply H'. now apply H.
  - intros HP. apply H in HP. discriminate.
Qed.

(** C5, as the code has it.  A candidate whose phrase is the term when case
    is ignored, and a candidate of several words one of which is the term
    when case is ignored, are skipped: the pass leaves the text and the
    recorded spans as they were, whatever they are; a text all of whose
    candidates are of these two kinds comes back unchanged.  With the term
    "GitHub": "I used get hub today" becomes "I used GitHub today";
    "I used GitHub today" comes back unchanged; so does "I used github today",
    whose only candidate is "github", by the first rule (the substitution
    would have written "GitHub"); and so does "I went to GitHub", whose
    candidates are "GitHub" and "to GitHub", the second by the second rule
    (the substitution would have dropped "to"). *)
Theorem term_as_phrase_or_word_is_skipped :
  (forall (st : state) (m : candidate),
      lower (original m) = lower (replacement m) ->
      decide_step st m = Skipped /\ apply_step st m = Some st)
  /\ (forall (st : state) (m : candidate),
         1 < List.length (split (lower (original m))) ->
         In (lower (replacement m)) (split (lower (original m))) ->
         decide_step st m = Skipped /\ apply_step st m = Some st)
  /\ (forall (self : Dictionary.t) (text : str),
         (forall m, In m (_find_matches_in_text self text) ->
                    lower (original m) = lower (replacement m)
                    \/ (1 < List.length (split (lower (original m)))
                        /\ In (lower (replacement m)) (split (lower (original m))))) ->
         apply self text = Some text)
  /\ apply (load [py "GitHub"]) (py "I used get hub today")
     = Some (py "I used GitHub today")
  /\ apply (load [py "GitHub"]) (py "I used GitHub today")
     = Some (py "I used GitHub today")
  /\ (_find_matches_in_text (load [py "GitHub"]) (py "I used github today")
      = [ {| original := py "github"; replacement := py "GitHub";
             similarity := 1%float; start := 7; end_ := 13 |} ]
      /\ sub_first_ci (py "github") (fun _ => py "GitHub") (py "I used github today")
         = py "I used GitHub today"
      /\ apply (load [py "GitHub"]) (py "I used github today")
         = Some (py "I used github today"))
  /\ (sort_by_score (_find_matches_in_text (load [py "GitHub"]) (py "I went to GitHub"))
      = [ {| original := py "GitHub"; replacement := py "GitHub";
             similarity := 1%float; start := 10; end_ := 16 |};
          {| original := py "to GitHub"; replacement := py "GitHub";
             similarity := (12 / 14)%float; start := 7; end_ := 16 |} ]
      /\ sub_first_ci (py "to GitHub") (fun _ => py "GitHub") (py "I went to GitHub")
         = py "I went GitHub"
      /\ apply (load [py "GitHub"]) (py "I went to GitHub")
         = Some (py "I went to GitHub")).
Proof.
  split; [|split; [|split; [|split; [|split; [|split]]]]].
  - intros st m H. apply same_as_term_spec in H. split.
    + apply decide_step_verbatim. now left.
    + apply apply_step_verbatim. now left.
  - intros st m H1 H2.
    assert (H : contains_term_word m = true)
      by (apply contains_term_word_spec; split; assumption).
    split.
    + apply decide_step_verbatim. now right.
    + apply apply_step_verbatim. now right.
  - intros self text H. unfold apply.
    destruct (terms self) as [|term terms']; [reflexivity|].
    destruct text as [|c text']; [reflexivity|].
    remember (c :: text') as text eqn:Et.
    destruct (_find_matches_in_text self text) as [|m0 ms] eqn:Em; [reflexivity|].
    rewrite apply_loop_verbatim; [reflexivity|].
    apply Forall_forall. intros m Hin.
    apply (Permutation_in _ (Permutation_sym (sort_by_score_perm _))) in Hin.
    destruct (H m Hin) as [H1 | H2].
    + left. now apply same_as_term_spec.
    + right. now apply contains_term_word_spec.
  - vm_compute. reflexivity.
  - vm_compute. reflexivity.
  - vm_compute. repeat split; reflexivity.
  - vm_compute. repeat split; reflexivity.
Qed.

(** C5, as the design document has it, fails: the two rules look at the
    whole phrase and at its words as split at blanks, and at nothing else.
    With the term "GitHub", the only candidate of "I used GitHub." is the
    window "GitHub.", which starts with the term as it is written; it is
    replaced, and the full stop is lost.  With the term "Mac Book", the window
    "my Mac Book" of "I love my Mac Book" ends with the term as it is written;
    it is replaced, and "my" is lost. *)
Lemma window_holding_the_term_is_replaced :
  _find_matches_in_text (load [py "GitHub"]) (py "I used GitHub.")
  = [ {| original := py "GitHub."; replacement := py "GitHub";
         similarity := 1%float; start := 7; end_ := 14 |} ]
  /\ find (py "GitHub.") (py "GitHub") = Some 0
  /\ apply (load [py "GitHub"]) (py "I used GitHub.") = Some (py "I used GitHub")
  /\ In {| original := py "my Mac Book"; replacement := py "Mac Book";
           similarity := (12 / 14)%float; start := 7; end_ := 18 |}
        (_find_matches_in_text (load [py "Mac Book"]) (py "I love my Mac Book"))
  /\ find (py "my Mac Book") (py "Mac Book") = Some 3
  /\ apply (load [py "Mac Book"]) (py "I love my Mac Book")
     = Some (py "I love Mac Book").
Proof. vm_compute. repeat split; try reflexivity. right. left. reflexivity. Qed.

(** C1, as the code has it.  The candidates are taken in ranked order: the
    matches found, sorted so that no candidate comes after one with a lower
    composite score; [apply] returns the text the loop ends with, and raises
    when the loop does.  The span of a candidate is the place where its
    phrase first occurs in the text in lower case, and as long as the phrase.
    When the loop comes to a candidate, the spans recorded are those of the
    candidates committed before it, and the candidate is committed exactly
    when its phrase is not the term (case ignored), it has not several words
    one of which is the term, its span overlaps the span of no candidate
    committed before it, and the substitution changes the text; it is then
    counted among the committed.  So once a candidate is committed, every
    later candidate whose span overlaps its span is skipped, and the spans of
    the committed candidates never overlap one another. *)
Theorem overlapping_candidates_are_not_both_applied
        (self : Dictionary.t) (text : str) :
  let ranked := sort_by_score (_find_matches_in_text self text) in
  let st0 := {| result := text; applied := [] |} in
  Permutation (_find_matches_in_text self text) ranked
  /\ Sorted not_outranked_by ranked
  /\ apply self text = option_map result (apply_loop st0 ranked)
  /\ (forall m, In m ranked ->
         find (lower text) (lower (original m)) = Some (start m)
         /\ end_ m = start m + len (original m))
  /\ (forall before m after st1,
         ranked = before ++ m :: after ->
         apply_loop st0 before = Some st1 ->
         applied st1 = map span_of (committed st0 before)
         /\ (forall new_result,
                decide_step st1 m = Committed new_result
                <-> lower (original m) <> lower (replacement m)
                    /\ ~ (1 < List.length (split (lower (original m)))
                          /\ In (lower (replacement m)) (split (lower (original m))))
                    /\ (forall m', In m' (committed st0 before) ->
                           spans_overlap (start m) (end_ m) (start m') (end_ m')
                           = false)
                    /\ exists template,
                         parse_template (replacement m) = Some template
                         /\ new_result
                            = sub_first_ci (original m) (expand_template template)
                                           (result st1)
                         /\ new_result <> result st1)
         /\ committed st0 (before ++ [m])
            = committed st0 before
              ++ match decide_step st1 m with
                 | Committed _ => [m]
                 | Skipped | Raised => []
                 end)
  /\ (forall before m1 between m2 after st1 new_result st2,
         ranked = before ++ m1 :: between ++ m2 :: after ->
         apply_loop st0 before = Some st1 ->
         decide_step st1 m1 = Committed new_result ->
         apply_loop st0 (before ++ m1 :: between) = Some st2 ->
         spans_overlap (start m1) (end_ m1) (start m2) (end_ m2) = true ->
         decide_step st2 m2 = Skipped /\ apply_step st2 m2 = Some st2)
  /\ pairwise_disjoint (map span_of (committed st0 ranked))
  /\ (forall st, apply_loop st0 ranked = Some st ->
                 applied st = map span_of (committed st0 ranked)).
Proof.
  intros ranked st0.
  split; [|split; [|split; [|split; [|split; [|split; [|split]]]]]].
  - apply sort_by_score_perm.
  - apply sort_by_score_sorted.
  - subst ranked st0. unfold apply.
    destruct (terms self) as [|term terms'] eqn:Ht.
    + assert (E : _find_matches_in_text self text = []).
      { unfold _find_matches_in_text. rewrite Ht. now destruct (split text). }
      rewrite E. reflexivity.
    + destruct text as [|c text']; [reflexivity|].
      cbv iota. remember (c :: text') as text eqn:Et.
      destruct (_find_matches_in_text self text) as [|m0 ms]; [reflexivity|].
      now destruct (apply_loop _ _).
  - intros m Hin.
    apply (Permutation_in _ (Permutation_sym (sort_by_score_perm _))) in Hin.
    apply in_find_matches in Hin as (term & window_size & i & _ & H).
    exact (window_match_span _ _ _ _ _ _ _ H).
  - intros before m after st1 _ Hloop.
    pose proof (applied_committed _ _ _ Hloop) as Ha. simpl in Ha.
    split; [exact Ha|]. split; [|exact (committed_snoc _ m _ _ Hloop)].
    intros new_result. rewrite decide_step_committed.
    rewrite (not_true_iff _ _ (same_as_term_spec m)).
    rewrite (not_true_iff _ _ (contains_term_word_spec m)).
    rewrite overlaps_applied_spec, Ha.
    split.
    + intros (H1 & H2 & H3 & H4). repeat split; try assumption.
      intros m' Hin. apply (H3 (span_of m')). now apply in_map.
    + intros (H1 & H2 & H3 & H4). repeat split; try assumption.
      intros sp Hin. apply in_map_iff in Hin as (m' & <- & Hin).
      now apply H3.
  - intros before m1 between m2 after st1 new_result st2 _ Hbefore Hc Hloop Hov.
    rewrite apply_loop_app, Hbefore in Hloop.
    pose proof (later_overlapping_is_skipped _ _ _ _ _ _ Hc Hloop Hov) as Hs.
    split; [exact Hs|]. unfold apply_step. now rewrite Hs.
  - exact (committed_disjoint ranked st0 (FOP_nil _)).
  - intros st H. exact (applied_committed _ _ _ H).
Qed.

(** An instance of the above: two windows that share a word of the text can
    both be committed, because the span of a candidate is where its phrase
    first occurs.  With the terms "GitHub" and "HubSpot" and the text
    "forget hub, I mean get hub spot", the words "get" and "hub" stand at 19
    to 26 and the words "hub" and "spot" at 23 to 31; the phrase "get hub"
    first occurs at 3, inside "forget hub", so the two spans are apart, both
    candidates are committed, and the first substitution writes "forGitHub". *)
Lemma windows_sharing_a_word_are_both_committed :
  let self := load [py "GitHub"; py "HubSpot"] in
  let text := py "forget hub, I mean get hub spot" in
  let hub_spot := {| original := py "hub spot"; replacement := py "HubSpot";
                     similarity := 1%float; start := 23; end_ := 31 |} in
  let get_hub := {| original := py "get hub"; replacement := py "GitHub";
                    similarity := (10 / 12)%float; start := 3; end_ := 10 |} in
  let st0 := {| result := text; applied := [] |} in
  firstn 2 (sort_by_score (_find_matches_in_text self text)) = [hub_spot; get_hub]
  /\ window_match self text (split text) (py "GitHub") 2 4 = Some get_hub
  /\ window_match self text (split text) (py "HubSpot") 2 5 = Some hub_spot
  /\ text = join (firstn 4 (split text)) ++ [space] ++ py "get hub spot"
  /\ len (join (firstn 4 (split text)) ++ [space]) = 19
  /\ committed st0 (sort_by_score (_find_matches_in_text self text))
     = [hub_spot; get_hub]
  /\ apply self text = Some (py "forGitHub, I mean get HubSpot").
Proof. vm_compute. repeat split; reflexivity. Qed.

(** C1, as the design document has it, fails.  With the terms "GitHub",
    "HubSpot" and "Spotlite" and the text "get hub spot light" the ranked
    candidates start with "spot light", "hub spot", "get hub".  The second
    overlaps the first and is skipped; the third overlaps the second, has the
    lower composite score of the two, and is applied all the same. *)
Lemma lower_ranked_overlapping_candidate_is_applied :
  let self := load [py "GitHub"; py "HubSpot"; py "Spotlite"] in
  let text := py "get hub spot light" in
  let spot_light := {| original := py "spot light"; replacement := py "Spotlite";
                       similarity := 1%float; start := 8; end_ := 18 |} in
  let hub_spot := {| original := py "hub spot"; replacement := py "HubSpot";
                     similarity := 1%float; start := 4; end_ := 12 |} in
  let get_hub := {| original := py "get hub"; replacement := py "GitHub";
                    similarity := (10 / 12)%float; start := 0; end_ := 7 |} in
  let st0 := {| result := text; applied := [] |} in
  let st1 := {| result := py "get hub Spotlite"; applied := [(8, 18)] |} in
  let st2 := {| result := py "GitHub Spotlite"; applied := [(8, 18); (0, 7)] |} in
  firstn 3 (sort_by_score (_find_matches_in_text self text))
  = [spot_light; hub_spot; get_hub]
  /\ spans_overlap (start hub_spot) (end_ hub_spot) (start get_hub) (end_ get_hub) = true
  /\ PrimFloat.ltb (match_score hub_spot) (match_score get_hub) = true
  /\ apply_step st0 spot_light = Some st1
  /\ decide_step st1 hub_spot = Skipped
  /\ apply_step st1 get_hub = Some st2
  /\ apply_loop st0 (sort_by_score (_find_matches_in_text self text)) = Some st2
  /\ apply self text = Some (py "GitHub Spotlite").
Proof. vm_compute. repeat split; reflexivity. Qed.

End ApplyFacts.

(** ** Shortcuts *)

Section KeyFacts.
Import Py Keys.

Lemma key_eqb_eq (a b : key) : key_eqb a b = true <-> a = b.
Proof. unfold key_eqb. destruct (key_eq_dec a b); split; congruence. Qed.

Lemma key_in_In (k : key) (s : list key) : key_in k s = true <-> In k s.
Proof.
  unfold key_in. rewrite existsb_exists. split.
  - intros (x & Hx & E). apply key_eqb_eq in E. now subst.
  - intros H. exists k. split; [exact H|]. now apply key_eqb_eq.
Qed.

Lemma key_add_In (k x : key) (s : list key) :
  In k (key_add x s) <-> k = x \/ In k s.
Proof.
  unfold key_add. destruct (key_in x s) eqn:E.
  - apply key_in_In in E. split; [now right|]. intros [-> | H]; assumption.
  - rewrite in_app_iff. simpl. split.
    + intros [H | [H | []]]; [now right | now left].
    + intros [-> | H]; [right; now left | now left].
Qed.

Lemma fold_add_part_In (parts : list str) (acc : list key) (k : key) :
  In k (fold_left add_part parts acc)
  <-> In k acc \/ exists part, In part parts /\ _parse_key part = Some k.
Proof.
  revert acc. induction parts as [|p rest IH]; intros acc; simpl.
  - split; [now left|]. intros [H | (part & [] & _)]. exact H.
  - rewrite IH. unfold add_part. split.
    + intros [H | (part & Hin & Hp)].
      * destruct (_parse_key p) as [x|] eqn:E; [|now left].
        apply key_add_In in H as [-> | H]; [|now left].
        right. exists p. split; [now left|exact E].
      * right. exists part. split; [now right|exact Hp].
    + intros [H | (part & [<- | Hin] & Hp)].
      * left. destruct (_parse_key p); [apply key_add_In; now right|exact H].
      * left. rewrite Hp. apply key_add_In. now left.
      * right. exists part. split; assumption.
Qed.

Lemma fold_add_part_nil (parts : list str) :
  (forall part, In part parts -> _parse_key part = None) ->
  fold_left add_part parts [] = [].
Proof.
  induction parts as [|p rest IH]; simpl; intros H; [reflexivity|].
  assert (E : add_part [] p = []).
  { unfold add_part. now rewrite (H p (or_introl eq_refl)). }
  rewrite E. apply IH. intros part Hin. apply H. now right.
Qed.

(** C6, as the code has it.  A token is trimmed, put in lower case and
    looked up in the table; a single letter or digit stands for itself; any
    other token parses to [None].  No error is raised for it: the
    push-to-talk set holds exactly the keys of the tokens that parse, and is
    Ctrl+Alt when no token parses. *)
Theorem unknown_tokens_are_left_out :
  (forall key_str k,
      lookup key_map (lower (strip key_str)) = Some k ->
      _parse_key key_str = Some (Special k))
  /\ (forall key_str c,
         lookup key_map (lower (strip key_str)) = None ->
         lower (strip key_str) = [c] -> isalnum c = true ->
         _parse_key key_str = Some (from_char (lower_char c)))
  /\ (forall key_str,
         lookup key_map (lower (strip key_str)) = None ->
         (forall c, lower (strip key_str) = [c] -> isalnum c = false) ->
         _parse_key key_str = None)
  /\ (forall shortcut,
         (forall part, In part (split_on plus shortcut) -> _parse_key part = None) ->
         _get_ptt_keys shortcut = [Special ctrl_l; Special alt_l])
  /\ (forall shortcut,
         (exists part, In part (split_on plus shortcut) /\ _parse_key part <> None) ->
         forall k, In k (_get_ptt_keys shortcut)
                   <-> exists part, In part (split_on plus shortcut)
                                    /\ _parse_key part = Some k).
Proof.
  split; [|split; [|split; [|split]]].
  - intros key_str k H. unfold _parse_key. now rewrite H.
  - intros key_str c H Hc Ha. unfold _parse_key. now rewrite H, Hc, Ha.
  - intros key_str H Hc. unfold _parse_key. rewrite H.
    destruct (lower (strip key_str)) as [|c [|d rest]]; try reflexivity.
    now rewrite (Hc c eq_refl).
  - intros shortcut H. unfold _get_ptt_keys. now rewrite (fold_add_part_nil _ H).
  - intros shortcut (part & Hin & Hp) k. unfold _get_ptt_keys.
    destruct (fold_left add_part (split_on plus shortcut) []) as [|x keys] eqn:E.
    + exfalso. destruct (_parse_key part) as [x|] eqn:Ex; [|congruence].
      assert (Hx : In x (fold_left add_part (split_on plus shortcut) [])).
      { apply fold_add_part_In. right. now exists part. }
      rewrite E in Hx. destruct Hx.
    + rewrite <- E, fold_add_part_In. split.
      * intros [[] | H]. exact H.
      * intros H. now right.
Qed.

(** C6, as the design document has it, fails: in "Ctrl+Foo" the token "Foo"
    is not a known name, and the document's parser answers [UnknownKey];
    the code answers the key set that holds Ctrl alone. *)
Lemma unknown_token_raises_no_error :
  In (py "Foo") (split_on plus (py "Ctrl+Foo"))
  /\ _parse_key (py "Foo") = None
  /\ documented_parse [Special ctrl_l; Special alt_l] (py "Ctrl+Foo") = UnknownKey
  /\ _get_ptt_keys (py "Ctrl+Foo") = [Special ctrl_l]
  /\ Combo (_get_ptt_keys (py "Ctrl+Foo"))
     <> documented_parse [Special ctrl_l; Special alt_l] (py "Ctrl+Foo").
Proof.
  split; [|split; [|split; [|split]]].
  - vm_compute. right. left. reflexivity.
  - vm_compute. reflexivity.
  - vm_compute. reflexivity.
  - vm_compute. reflexivity.
  - intros H. vm_compute in H. discriminate H.
Qed.

End KeyFacts.

(** ** The recording state machine *)

Section MachineFacts.
Import Py Keys App.
Local Open Scope handler_scope.

Ltac handler :=
  unfold state_after, calls, step, _on_key_press, _on_key_release,
    _process_recording, _cancel_recording, _stop_recording, _start_recording,
    _lock_recording, _update_tray_icon, recorder_stop, recorder_start,
    _audio_callback, pressed_with, when, bind, get, modify, emit, ret in *;
  cbn in *.

Lemma press_cancel_while_recording (self : app) (key : key) :
  _normalize_key key = _get_cancel_key (shortcut_cancel self) ->
  is_recording self = true ->
  let self' := state_after (_on_key_press key) self in
  is_recording self' = false
  /\ is_locked self' = false
  /\ is_processing self' = is_processing self
  /\ threads self' = threads self
  /\ recording (recorder self') = false
  /\ _ptt_was_pressed self' = _ptt_was_pressed self
  /\ calls (_on_key_press key) self = cancel_calls self.
Proof.
  intros Hk Hr.
  assert (E : key_eqb (_normalize_key key) (_get_cancel_key (shortcut_cancel self)) = true)
    by now apply key_eqb_eq.
  destruct self as [ptt lock cancel sounds tray d sc [rec_on audio] r l p keys was last th fl].
  unfold cancel_calls. cbn in *. subst r. handler. rewrite E. cbn.
  destruct audio, tray; cbn; repeat split.
Qed.

(** Case analysis along the tests a handler makes, in the order it makes
    them: the leftmost undecided condition of the first stuck conditional is
    split, and what it decides is used wherever the same condition comes back. *)
Ltac open_app self :=
  destruct self as [ptt lock cancel sounds tray d sc [rec_on audio] r l p keys was last th fl].

Ltac is_atom b :=
  first [ is_var b
        | lazymatch b with
          | key_eqb _ _ => idtac
          | key_in _ _ => idtac
          | issubset _ _ => idtac
          | Dictionary.apply _ _ => idtac
          end ].

Ltac split_bool b :=
  lazymatch b with
  | andb ?x _ => split_bool x
  | orb ?x _ => split_bool x
  | negb ?x => split_bool x
  | _ => is_atom b; destruct b eqn:?
  end.

Ltac known_fact :=
  match goal with
  | H : ?e = ?v |- context [?e] =>
      lazymatch e with
      | true => fail
      | false => fail
      | _ => lazymatch v with
             | true => rewrite H
             | false => rewrite H
             end
      end
  end.

Ltac step_case :=
  first
    [ progress cbn
    | known_fact
    | match goal with
      | |- context [if ?b then _ else _] => split_bool b
      end
    | match goal with
      | |- context [match ?n with 0 => _ | S _ => _ end] => is_var n; destruct n
      | |- context [match ?o with Some _ => _ | None => _ end] =>
          is_atom o; destruct o eqn:?
      | |- context [match ?t with [] => _ | _ :: _ => _ end] => is_var t; destruct t
      end ].

Ltac crush := unfold _is_ptt_pressed; repeat step_case.

Lemma press_while_busy_starts_nothing (self : app) (key : key) :
  is_recording self = true \/ is_processing self = true ->
  ~ In Recorder_start (calls (_on_key_press key) self).
Proof.
  open_app self. handler. crush;
    intros [Hb | Hb] Hin; try discriminate Hb;
    repeat (destruct Hin as [Hin | Hin]; [discriminate Hin|]); exact Hin.
Qed.

Lemma press_reaching_start_while_busy (self : app) (key : key) :
  reaches_start key self = true ->
  is_recording self = true \/ is_processing self = true ->
  state_after (_on_key_press key) self
  = set_ptt_was_pressed true (pressed_with key self)
  /\ calls (_on_key_press key) self = [].
Proof.
  unfold reaches_start. open_app self. handler. crush;
    intros Hs [Hb | Hb]; try discriminate Hs; try discriminate Hb;
    split; reflexivity.
Qed.

Lemma other_events_start_nothing (self : app) (e : event) :
  (forall k, e <> Press k) ->
  ~ In Recorder_start (calls (step e) self).
Proof.
  intros He. destruct e as [k | k | | transcribed]; [now destruct (He k)| | |];
    open_app self; handler; crush; intros Hin;
    repeat (destruct Hin as [Hin | Hin]; [discriminate Hin|]); exact Hin.
Qed.

Lemma start_call_means_idle (self : app) (e : event) :
  In Recorder_start (calls (step e) self) ->
  is_recording self = false /\ is_processing self = false.
Proof.
  intros Hin. destruct e as [k | k | | transcribed];
    try (exfalso; revert Hin; apply other_events_start_nothing; discriminate).
  destruct (is_recording self) eqn:Hr.
  - exfalso. revert Hin. apply press_while_busy_starts_nothing. now left.
  - destruct (is_processing self) eqn:Hp; [|split; reflexivity].
    exfalso. revert Hin. apply press_while_busy_starts_nothing. now right.
Qed.

Lemma step_consistent (self : app) (e : event) :
  consistent self = true -> consistent (state_after (step e) self) = true.
Proof.
  unfold consistent. destruct e as [k | k | | transcribed];
    open_app self; handler; crush; intros H; subst;
    repeat match goal with b : bool |- _ => destruct b end;
    cbn in *; congruence.
Qed.

Lemma run_cons (e : event) (rest : list event) (self : app) :
  state_after (run (e :: rest)) self
  = state_after (run rest) (state_after (step e) self).
Proof.
  unfold state_after. cbn [run]. unfold bind.
  destruct (step e self) as [[x a1] e1]. cbn.
  now destruct (run rest a1) as [[y a2] e2].
Qed.

Lemma run_consistent (events : list event) (self : app) :
  consistent self = true -> consistent (state_after (run events) self) = true.
Proof.
  revert self. induction events as [|e rest IH]; intros self H.
  - exact H.
  - rewrite run_cons. apply IH. now apply step_consistent.
Qed.

Lemma consistent_init (ptt lock cancel : str) (sounds : bool)
      (d : Dictionary.t) (s : Scrubber.t) :
  consistent (init ptt lock cancel sounds d s) = true.
Proof. reflexivity. Qed.

(** C8: a key press never starts a recording while one is active or being
    processed.  (1) Such a press makes no call to [AudioRecorder.start].
    (2) When it gets as far as the test that guards the start, it is passed
    over: no call is made, and only the set of held keys and the note that
    the push-to-talk keys are held change; the session state stays.  (3) Along
    every run from the initial state, whatever the configuration, [start] is
    only ever called on a recorder that is not recording, with no session
    recording or in processing: there is at most one session at a time. *)
Theorem press_never_starts_a_second_session :
  (forall self key,
      is_recording self = true \/ is_processing self = true ->
      ~ In Recorder_start (calls (_on_key_press key) self))
  /\ (forall self key,
         reaches_start key self = true ->
         is_recording self = true \/ is_processing self = true ->
         state_after (_on_key_press key) self
         = set_ptt_was_pressed true (pressed_with key self)
         /\ session_state (state_after (_on_key_press key) self) = session_state self
         /\ calls (_on_key_press key) self = [])
  /\ (forall ptt lock cancel sounds d s events e,
         let self := state_after (run events) (init ptt lock cancel sounds d s) in
         In Recorder_start (calls (step e) self) ->
         recording (recorder self) = false
         /\ session_state self = Idle).
Proof.
  split; [|split].
  - exact press_while_busy_starts_nothing.
  - intros self key Hs Hb.
    destruct (press_reaching_start_while_busy self key Hs Hb) as [Hst Hc].
    split; [exact Hst|]. split; [|exact Hc]. rewrite Hst. reflexivity.
  - intros ptt lock cancel sounds d s events e self Hin.
    apply start_call_means_idle in Hin as [Hr Hp].
    assert (Hc : consistent self = true)
      by (apply run_consistent, consistent_init).
    unfold consistent in Hc. unfold session_state. rewrite Hr, Hp in *.
    split; [|reflexivity].
    destruct (recording (recorder self)), (is_locked self);
      cbn in Hc; congruence.
Qed.

Lemma stop_spawns_the_thread (self : app) :
  is_recording self = true ->
  let self' := state_after _stop_recording self in
  session_state self' = Processing
  /\ is_locked self' = false
  /\ threads self' = S (threads self)
  /\ recorder self' = recorder self
  /\ calls _stop_recording self
     = (if sounds_enabled self then [Play_stop] else [])
       ++ (if tray_icon self then [Tray Processing_icon] else [])
       ++ [Thread_start].
Proof.
  unfold session_state. open_app self. handler. intros ->. crush; repeat split.
Qed.

Lemma process_without_audio (self : app) (transcribed : option str) :
  audio_data (recorder self) = 0 ->
  let self' := state_after (_process_recording transcribed) self in
  calls (_process_recording transcribed) self
  = Recorder_stop None :: Print Msg_no_audio
    :: (if tray_icon self then [Tray Idle_icon] else [])
  /\ is_processing self' = false
  /\ recording (recorder self') = false
  /\ is_recording self' = is_recording self
  /\ is_locked self' = is_locked self
  /\ _last_transcript self' = _last_transcript self
  /\ files self' = files self.
Proof.
  open_app self. handler. intros ->. crush; repeat split.
Qed.

(** C7, as the code has it.  When a recording stops, the background thread
    is spawned and the state is Processing, whether any audio was captured or
    not: the recorder is stopped by the thread, not before it.  When the
    thread runs and the recorder reports no audio ([stop] returns [None]),
    the thread calls nothing else but the report "No audio recorded" and the
    tray: no recognizer, dictionary, scrubber, statistics or typing; and it
    clears the processing flag, which leaves the state Idle. *)
Theorem no_audio_ends_the_thread_early :
  (forall self,
      is_recording self = true ->
      let self' := state_after _stop_recording self in
      session_state self' = Processing
      /\ threads self' = S (threads self)
      /\ recorder self' = recorder self
      /\ In Thread_start (calls _stop_recording self))
  /\ (forall self transcribed,
         audio_data (recorder self) = 0 ->
         let self' := state_after (_process_recording transcribed) self in
         calls (_process_recording transcribed) self
         = Recorder_stop None :: Print Msg_no_audio
           :: (if tray_icon self then [Tray Idle_icon] else [])
         /\ is_processing self' = false
         /\ _last_transcript self' = _last_transcript self
         /\ (is_recording self = false -> session_state self' = Idle)).
Proof.
  split.
  - intros self Hr self'.
    destruct (stop_spawns_the_thread self Hr) as (Hs & _ & Ht & Hrec & Hc).
    repeat split; try assumption.
    rewrite Hc. apply in_or_app. right. apply in_or_app. right. now left.
  - intros self transcribed Ha self'.
    destruct (process_without_audio self transcribed Ha)
      as (Hc & Hp & _ & Hr & _ & Hl & _).
    repeat split; try assumption.
    intros Hnr. unfold session_state. subst self'. cbv zeta in *.
    now rewrite Hr, Hnr, Hp.
Qed.

(** C7, as the design document has it, fails.  From the initial state with
    the default shortcuts, Ctrl and Alt are pressed and Alt is released, with
    no audio callback in between.  The release spawns the thread and leaves
    the state Processing, not Idle; the thread then finds that the recorder
    has nothing. *)
Lemma stop_without_audio_still_spawns_the_thread :
  let events := [Press (Special ctrl_l); Press (Special alt_l);
                 Release (Special alt_l)] in
  let self := state_after (run events) default_app in
  audio_data (recorder self) = 0
  /\ calls (run events) default_app
     = [Play_start; Recorder_start; Tray Recording_icon; Print Msg_recording;
        Play_stop; Tray Processing_icon; Thread_start]
  /\ session_state self = Processing
  /\ threads self = 1
  /\ calls (step (Thread_runs None)) self
     = [Recorder_stop None; Print Msg_no_audio; Tray Idle_icon]
  /\ session_state (state_after (step (Thread_runs None)) self) = Idle.
Proof. vm_compute. repeat split; reflexivity. Qed.

Lemma press_with_combo_not_held (self : app) (key : key) :
  is_recording self = false ->
  _is_ptt_pressed (pressed_with key self) = false ->
  state_after (_on_key_press key) self
  = set_ptt_was_pressed false (pressed_with key self)
  /\ calls (_on_key_press key) self = [].
Proof.
  open_app self. handler. intros ->. crush;
    intros H; try discriminate H; split; reflexivity.
Qed.

Lemma press_with_combo_held_while_idle (self : app) (key : key) :
  is_recording self = false ->
  is_locked self = false ->
  is_processing self = false ->
  _is_ptt_pressed (pressed_with key self) = true ->
  is_recording (state_after (_on_key_press key) self) = true
  /\ In Recorder_start (calls (_on_key_press key) self).
Proof.
  open_app self. handler. intros -> -> ->. crush;
    intros H; try discriminate H; split; try reflexivity; cbn; tauto.
Qed.

(** C9, as the code has it.  (1) A press of the cancel key while recording
    (locked or not) is handled before anything else: the recording flags are
    cleared, the recorder is stopped and the file it wrote, if any, removed;
    no thread is spawned and the recognizer is not called.  (2) From the
    initial state, in every run, this leaves the state Idle.  (3) While not
    recording, the cancel key is a key like any other: it joins the held
    keys; nothing else changes when the push-to-talk keys are not all held,
    and a recording starts when they are and nothing is locked or in
    processing. *)
Theorem cancel_key_discards_the_recording :
  (forall self key,
      _normalize_key key = _get_cancel_key (shortcut_cancel self) ->
      is_recording self = true ->
      let self' := state_after (_on_key_press key) self in
      is_recording self' = false
      /\ is_locked self' = false
      /\ is_processing self' = is_processing self
      /\ threads self' = threads self
      /\ recording (recorder self') = false
      /\ calls (_on_key_press key) self = cancel_calls self)
  /\ (forall ptt lock cancel sounds d s events key,
         let self := state_after (run events) (init ptt lock cancel sounds d s) in
         _normalize_key key = _get_cancel_key (shortcut_cancel self) ->
         is_recording self = true ->
         session_state (state_after (_on_key_press key) self) = Idle)
  /\ (forall self key,
         _normalize_key key = _get_cancel_key (shortcut_cancel self) ->
         is_recording self = false ->
         (_is_ptt_pressed (pressed_with key self) = false ->
          state_after (_on_key_press key) self
          = set_ptt_was_pressed false (pressed_with key self)
          /\ calls (_on_key_press key) self = [])
         /\ (_is_ptt_pressed (pressed_with key self) = true ->
             is_locked self = false ->
             is_processing self = false ->
             session_state (state_after (_on_key_press key) self) = Recording
             /\ In Recorder_start (calls (_on_key_press key) self))).
Proof.
  split; [|split].
  - intros self key Hk Hr self'.
    destruct (press_cancel_while_recording self key Hk Hr)
      as (H1 & H2 & H3 & H4 & H5 & _ & H7).
    repeat split; assumption.
  - intros ptt lock cancel sounds d s events key self Hk Hr.
    destruct (press_cancel_while_recording self key Hk Hr)
      as (H1 & H2 & H3 & _).
    assert (Hc : consistent self = true)
      by (apply run_consistent, consistent_init).
    unfold consistent in Hc. rewrite Hr in Hc.
    unfold session_state. cbv zeta in *. rewrite H1, H3.
    now destruct (is_processing self).
  - intros self key _ Hr. split.
    + intros Hp. now apply press_with_combo_not_held.
    + intros Hp Hl Hproc.
      destruct (press_with_combo_held_while_idle self key Hr Hl Hproc Hp)
        as [H1 H2].
      split; [|exact H2]. unfold session_state. rewrite H1.
      revert Hp. open_app self. cbn in Hr, Hproc, Hl. subst. handler.
      crush; intros H; try discriminate H; reflexivity.
Qed.

(** C9, as the design document has it, fails.  With the default shortcuts,
    Ctrl and Alt are pressed, then Escape, which cancels the recording.
    Ctrl and Alt are still held, the state is Idle, and a second press of
    Escape, the cancel key, starts a new recording. *)
Lemma cancel_key_while_idle_starts_a_recording :
  let idle := state_after (run [Press (Special ctrl_l); Press (Special alt_l);
                                Press (Special esc)]) default_app in
  _normalize_key (Special esc) = _get_cancel_key (shortcut_cancel idle)
  /\ session_state idle = Idle
  /\ session_state (state_after (_on_key_press (Special esc)) idle) = Recording
  /\ calls (_on_key_press (Special esc)) idle
     = [Play_start; Recorder_start; Tray Recording_icon; Print Msg_recording]
  /\ state_after (_on_key_press (Special esc)) idle <> idle.
Proof.
  vm_compute. repeat split; try reflexivity. intros H. discriminate H.
Qed.

End MachineFacts.

(** * Further properties *)

(** ** Keys: normal forms *)

Section NormalFormFacts.
Import Py Keys.

(** A property of characters that holds of each of the 256 holds of all. *)
Lemma for_all_chars (P : ascii -> bool) :
  forallb P (map ascii_of_nat (seq 0 256)) = true -> forall c, P c = true.
Proof.
  intros H c. rewrite forallb_forall in H. apply H.
  rewrite <- (ascii_nat_embedding c). apply in_map. apply in_seq.
  pose proof (nat_ascii_bounded c). lia.
Qed.

Lemma normalize_ignores_vk (vk : option nat) (c : ascii) :
  _normalize_key (KeyCode vk (Some c)) = _normalize_key (from_char c).
Proof. now destruct vk. Qed.


Lemma for_all_in_range (P : nat -> bool) (lo n : nat) :
  forallb P (seq lo n) = true -> forall v, lo <= v < lo + n -> P v = true.
Proof.
  intros H v Hv. rewrite forallb_forall in H. apply H. now apply in_seq.
Qed.

Lemma normalize_alnum_fixed (c : ascii) :
  isalnum c = true ->
  _normalize_key (from_char (lower_char c)) = from_char (lower_char c).
Proof.
  intros H. apply key_eqb_eq. revert c H.
  assert (A : forall c,
             implb (isalnum c)
                   (key_eqb (_normalize_key (from_char (lower_char c)))
                            (from_char (lower_char c))) = true).
  { apply for_all_chars. vm_compute. reflexivity. }
  intros c H. specialize (A c). now rewrite H in A.
Qed.



End NormalFormFacts.

(** ** Keys: what the shortcuts parse to *)

Section KeyVariantFacts.
Import Py Keys.

(** One letter key, however the listener reports it (as the lower-case or
    the upper-case character, as the control character Ctrl makes of it, or
    by its virtual key code alone), is the same key once normalized. *)
Theorem letter_key_variants_agree (n : nat) (vk1 vk2 vk3 : option nat) :
  1 <= n <= 26 ->
  let letter := from_char (ascii_of_nat (96 + n)) in
  _normalize_key (KeyCode vk1 (Some (ascii_of_nat (96 + n)))) = letter
  /\ _normalize_key (KeyCode vk2 (Some (ascii_of_nat (64 + n)))) = letter
  /\ _normalize_key (KeyCode vk3 (Some (ascii_of_nat n))) = letter
  /\ _normalize_key (KeyCode (Some (64 + n)) None) = letter.
Proof.
  intros Hn letter. rewrite !normalize_ignores_vk. unfold letter.
  assert (A : forall v, 1 <= v < 1 + 26 ->
     (key_eqb (_normalize_key (from_char (ascii_of_nat (96 + v))))
              (from_char (ascii_of_nat (96 + v)))
      && key_eqb (_normalize_key (from_char (ascii_of_nat (64 + v))))
                 (from_char (ascii_of_nat (96 + v)))
      && key_eqb (_normalize_key (from_char (ascii_of_nat v)))
                 (from_char (ascii_of_nat (96 + v)))
      && key_eqb (_normalize_key (KeyCode (Some (64 + v)) None))
                 (from_char (ascii_of_nat (96 + v)))) = true).
  { apply for_all_in_range. vm_compute. reflexivity. }
  specialize (A n ltac:(lia)).
  repeat (apply andb_true_iff in A as [A ?]).
  repeat split; now apply key_eqb_eq.
Qed.

Lemma letter_key_variants_agree_witness :
  1 <= 1 <= 26
  /\ _normalize_key (KeyCode (Some 65) (Some (ascii_of_nat 1)))
     = from_char "a"%char.
Proof.
  assert (H : 1 <= 1 <= 26) by lia.
  split; [exact H|].
  exact (proj1 (proj2 (proj2 (letter_key_variants_agree 1 None None (Some 65) H)))).
Defined.

Lemma lookup_in_table (table : list (string * special)) (name : str) (k : special) :
  lookup table name = Some k -> In k (map snd table).
Proof.
  induction table as [|[n v] rest IH]; simpl; [discriminate|].
  destruct (eqb_str (py n) name).
  - intros H. injection H as ->. now left.
  - intros H. right. now apply IH.
Qed.

Lemma table_keys_normalized (k : special) :
  In k (map snd key_map) -> _normalize_key (Special k) = Special k.
Proof.
  intros H.
  assert (A : forallb (fun s => key_eqb (_normalize_key (Special s)) (Special s))
                      (map snd key_map) = true) by (vm_compute; reflexivity).
  rewrite forallb_forall in A. apply key_eqb_eq. now apply A.
Qed.

Lemma parse_key_normalized (key_str : str) (k : key) :
  _parse_key key_str = Some k -> _normalize_key k = k.
Proof.
  unfold _parse_key.
  destruct (lookup key_map (lower (strip key_str))) as [s|] eqn:E.
  - intros H. injection H as <-.
    apply table_keys_normalized. exact (lookup_in_table _ _ _ E).
  - destruct (lower (strip key_str)) as [|c [|d rest]]; try discriminate.
    destruct (isalnum c) eqn:Ha; [|discriminate].
    intros H. injection H as <-. now apply normalize_alnum_fixed.
Qed.

(** Every key a shortcut parses to is in normal form, so it can be compared
    with the normalized key of an event: this holds of each parsed token, of
    every key of the push-to-talk set, and of the lock and cancel keys,
    defaults included. *)
Theorem configured_keys_are_normalized :
  (forall key_str k, _parse_key key_str = Some k -> _normalize_key k = k)
  /\ (forall shortcut k, In k (_get_ptt_keys shortcut) -> _normalize_key k = k)
  /\ (forall shortcut, _normalize_key (_get_lock_key shortcut) = _get_lock_key shortcut)
  /\ (forall shortcut,
         _normalize_key (_get_cancel_key shortcut) = _get_cancel_key shortcut).
Proof.
  split; [exact parse_key_normalized|split; [|split]].
  - intros shortcut k. unfold _get_ptt_keys.
    destruct (fold_left add_part (split_on plus shortcut) []) as [|x keys] eqn:E.
    + intros [<- | [<- | []]]; reflexivity.
    + rewrite <- E. intros H. apply fold_add_part_In in H as [[] | (part & _ & Hp)].
      exact (parse_key_normalized _ _ Hp).
  - intros shortcut. unfold _get_lock_key.
    destruct (_parse_key shortcut) eqn:E; [|reflexivity].
    exact (parse_key_normalized _ _ E).
  - intros shortcut. unfold _get_cancel_key.
    destruct (_parse_key shortcut) eqn:E; [|reflexivity].
    exact (parse_key_normalized _ _ E).
Qed.

Lemma key_add_NoDup (k : key) (s : list key) : NoDup s -> NoDup (key_add k s).
Proof.
  intros H. unfold key_add. destruct (key_in k s) eqn:E; [exact H|].
  apply NoDup_app; [exact H|repeat constructor; intros []|].
  intros x Hx [<- | []].
  apply key_in_In in Hx. congruence.
Qed.

Lemma fold_add_part_NoDup (parts : list str) (acc : list key) :
  NoDup acc -> NoDup (fold_left add_part parts acc).
Proof.
  revert acc. induction parts as [|p rest IH]; intros acc H; simpl; [exact H|].
  apply IH. unfold add_part. destruct (_parse_key p); [|exact H].
  now apply key_add_NoDup.
Qed.

(** The push-to-talk set is never empty, whatever the shortcut string (so
    the test that all its keys are held never succeeds on an empty set), and
    it lists no key twice. *)
Theorem ptt_keys_nonempty_and_distinct (shortcut : str) :
  _get_ptt_keys shortcut <> [] /\ NoDup (_get_ptt_keys shortcut).
Proof.
  unfold _get_ptt_keys.
  destruct (fold_left add_part (split_on plus shortcut) []) as [|x keys] eqn:E.
  - split; [discriminate|]. repeat constructor; simpl; intuition discriminate.
  - split; [discriminate|]. rewrite <- E. apply fold_add_part_NoDup. constructor.
Qed.

Lemma issubset_spec (a b : list key) :
  issubset a b = true <-> forall k, In k a -> In k b.
Proof.
  unfold issubset. rewrite forallb_forall. split.
  - intros H k Hk. apply key_in_In. now apply H.
  - intros H k Hk. apply key_in_In. now apply H.
Qed.

Lemma key_discard_In (k x : key) (s : list key) :
  In x (key_discard k s) <-> In x s /\ x <> k.
Proof.
  unfold key_discard. rewrite filter_In. split.
  - intros [H E]. split; [exact H|]. intros ->.
    apply negb_true_iff in E.
    assert (key_eqb k k = true) by now apply key_eqb_eq. congruence.
  - intros [H N]. split; [exact H|]. apply negb_true_iff.
    destruct (key_eqb k x) eqn:E; [|reflexivity].
    apply key_eqb_eq in E. congruence.
Qed.

End KeyVariantFacts.

(** ** The state machine: its transitions and what a run keeps *)

Section TransitionFacts.
Import Py Keys App Settings.
Local Open Scope handler_scope.

Ltac handler :=
  unfold state_after, calls, step, _on_key_press, _on_key_release,
    _process_recording, _cancel_recording, _stop_recording, _start_recording,
    _lock_recording, _update_tray_icon, recorder_stop, recorder_start,
    _audio_callback, pressed_with, when, bind, get, modify, emit, ret in *;
  cbn in *.

Ltac open_app self :=
  destruct self as [ptt lock cancel sounds tray d sc [rec_on audio] r l p keys was last th fl].

Ltac is_atom b :=
  first [ is_var b
        | lazymatch b with
          | key_eqb _ _ => idtac
          | key_in _ _ => idtac
          | issubset _ _ => idtac
          | Dictionary.apply _ _ => idtac
          end ].

Ltac split_bool b :=
  lazymatch b with
  | andb ?x _ => split_bool x
  | orb ?x _ => split_bool x
  | negb ?x => split_bool x
  | _ => is_atom b; destruct b eqn:?
  end.

Ltac known_fact :=
  match goal with
  | H : ?e = ?v |- context [?e] =>
      lazymatch e with
      | true => fail
      | false => fail
      | _ => lazymatch v with
             | true => rewrite H
             | false => rewrite H
             end
      end
  end.

Ltac step_case :=
  first
    [ progress cbn
    | known_fact
    | match goal with
      | |- context [if ?b then _ else _] => split_bool b
      end
    | match goal with
      | |- context [match ?n with 0 => _ | S _ => _ end] => is_var n; destruct n
      | |- context [match ?o with Some _ => _ | None => _ end] =>
          is_atom o; destruct o eqn:?
      | |- context [match ?t with [] => _ | _ :: _ => _ end] => is_var t; destruct t
      end ].

Ltac crush := unfold _is_ptt_pressed; repeat step_case.

















(** Locking: while recording and not locked, with the push-to-talk keys
    held, a press of the lock key (when it is not also the cancel key) locks
    the recording.  Nothing is stopped and no thread is spawned; the recorder
    goes on. *)
Theorem lock_key_locks_the_recording (self : app) (key : key) :
  is_recording self = true ->
  is_locked self = false ->
  _normalize_key key <> _get_cancel_key (shortcut_cancel self) ->
  _normalize_key key = _get_lock_key (shortcut_lock self) ->
  _is_ptt_pressed (pressed_with key self) = true ->
  state_after (_on_key_press key) self = set_is_locked true (pressed_with key self)
  /\ session_state (state_after (_on_key_press key) self) = Locked
  /\ calls (_on_key_press key) self
     = (if tray_icon self then [Tray Locked_icon] else []) ++ [Print Msg_locked].
Proof.
  intros Hr Hl Hc Hk. rewrite Hk in Hc.
  assert (Ec : key_eqb (_get_lock_key (shortcut_lock self))
                       (_get_cancel_key (shortcut_cancel self)) = false).
  { destruct (key_eqb _ _) eqn:E; [|reflexivity]. apply key_eqb_eq in E. congruence. }
  assert (El : key_eqb (_get_lock_key (shortcut_lock self))
                       (_get_lock_key (shortcut_lock self)) = true)
    by now apply key_eqb_eq.
  unfold session_state. revert Hr Hl Ec El. open_app self. handler.
  rewrite Hk. intros -> -> Ec El. unfold _is_ptt_pressed. cbn.
  rewrite Ec. cbn. intros Hp. rewrite Hp, El. cbn.
  destruct tray; cbn; repeat split.
Qed.

Lemma lock_key_locks_the_recording_witness :
  let self := state_after (run [Press (Special ctrl_l); Press (Special alt_l)])
                          default_app in
  session_state (state_after (_on_key_press (Special space_key)) self) = Locked.
Proof.
  intros self.
  refine (proj1 (proj2 (lock_key_locks_the_recording self (Special space_key)
                          _ _ _ _ _))).
  - vm_compute. reflexivity.
  - vm_compute. reflexivity.
  - vm_compute. discriminate.
  - vm_compute. reflexivity.
  - vm_compute. reflexivity.
Defined.

(** Releasing keys.  While recording and not locked, the release of any one
    key of the push-to-talk set stops the recording: the state is Processing
    and the thread is spawned.  The release of any other key, or any release
    while locked or while not recording, changes neither the session nor the
    recorder and calls nothing. *)
Theorem release_of_a_ptt_key_stops_the_recording :
  (forall self key,
      is_recording self = true -> is_locked self = false ->
      key_in (_normalize_key key) (_get_ptt_keys (shortcut_ptt self)) = true ->
      session_state (state_after (_on_key_release key) self) = Processing
      /\ In Thread_start (calls (_on_key_release key) self)
      /\ recorder (state_after (_on_key_release key) self) = recorder self
      /\ _ptt_was_pressed (state_after (_on_key_release key) self) = false)
  /\ (forall self key,
         is_recording self = false \/ is_locked self = true
         \/ key_in (_normalize_key key) (_get_ptt_keys (shortcut_ptt self)) = false ->
         session_state (state_after (_on_key_release key) self) = session_state self
         /\ is_locked (state_after (_on_key_release key) self) = is_locked self
         /\ recorder (state_after (_on_key_release key) self) = recorder self
         /\ threads (state_after (_on_key_release key) self) = threads self
         /\ calls (_on_key_release key) self = []).
Proof.
  split.
  - intros self key Hr Hl Hk.
    assert (Hsub : forall keys,
               issubset (_get_ptt_keys (shortcut_ptt self))
                        (key_discard (_normalize_key key) keys) = false).
    { intros keys. destruct (issubset _ _) eqn:E; [|reflexivity].
      apply key_in_In in Hk. rewrite issubset_spec in E.
      apply E in Hk. apply key_discard_In in Hk. now destruct Hk. }
    unfold session_state. revert Hr Hl Hk Hsub. open_app self. handler.
    intros -> -> Hk Hsub. unfold _is_ptt_pressed. cbn. rewrite Hk. cbn.
    destruct sounds, tray; cbn; repeat split; try tauto; exact (Hsub keys).
  - intros self key. unfold session_state. open_app self. handler.
    crush; intros [H | [H | H]]; try discriminate H; repeat split.
Qed.

(** A locked recording.  With the recording locked, a press that finds the
    push-to-talk keys all held after they were not (and that is not the
    cancel key) stops the recording, and the thread is spawned; a press while
    they have been held all along changes nothing in the session. *)
Theorem ptt_pressed_again_stops_a_locked_recording :
  (forall self key,
      is_recording self = true -> is_locked self = true ->
      _ptt_was_pressed self = false ->
      _normalize_key key <> _get_cancel_key (shortcut_cancel self) ->
      _is_ptt_pressed (pressed_with key self) = true ->
      session_state (state_after (_on_key_press key) self) = Processing
      /\ In Thread_start (calls (_on_key_press key) self)
      /\ recorder (state_after (_on_key_press key) self) = recorder self)
  /\ (forall self key,
         is_recording self = true -> is_locked self = true ->
         _ptt_was_pressed self = true ->
         _normalize_key key <> _get_cancel_key (shortcut_cancel self) ->
         session_state (state_after (_on_key_press key) self) = Locked
         /\ calls (_on_key_press key) self = []).
Proof.
  split.
  - intros self key Hr Hl Hw Hc.
    assert (Ec : key_eqb (_normalize_key key)
                         (_get_cancel_key (shortcut_cancel self)) = false).
    { destruct (key_eqb _ _) eqn:E; [|reflexivity]. apply key_eqb_eq in E. congruence. }
    unfold session_state. revert Hr Hl Hw Ec. open_app self. handler.
    intros -> -> -> Ec. unfold _is_ptt_pressed. cbn. rewrite Ec. cbn.
    intros Hp. rewrite Hp. cbn. rewrite andb_false_r. cbn.
    destruct sounds, tray; cbn; repeat split; tauto.
  - intros self key Hr Hl Hw Hc.
    assert (Ec : key_eqb (_normalize_key key)
                         (_get_cancel_key (shortcut_cancel self)) = false).
    { destruct (key_eqb _ _) eqn:E; [|reflexivity]. apply key_eqb_eq in E. congruence. }
    unfold session_state. revert Hr Hl Hw Ec. open_app self. handler.
    intros -> -> -> Ec. unfold _is_ptt_pressed. cbn. rewrite Ec. cbn.
    destruct (issubset _ _); cbn; rewrite ?andb_false_r; cbn; repeat split.
Qed.














(** The background thread always ends with the processing flag down,
    whatever the recorder, the recognizer and the dictionary do; and when the
    recognizer raises or hears nothing, no text reaches the dictionary, the
    scrubber, the statistics or the keyboard, and the last transcript is
    kept. *)
Theorem thread_always_clears_the_flag :
  (forall self transcribed,
      is_processing (state_after (_process_recording transcribed) self) = false
      /\ recording (recorder (state_after (_process_recording transcribed) self))
         = false)
  /\ (forall self transcribed,
         transcribed = None \/ transcribed = Some [] ->
         existsb text_call (calls (_process_recording transcribed) self) = false
         /\ _last_transcript (state_after (_process_recording transcribed) self)
            = _last_transcript self).
Proof.
  split.
  - intros self transcribed. open_app self. handler. crush; split; reflexivity.
  - intros self transcribed [-> | ->]; open_app self; handler; crush;
      split; reflexivity.
Qed.

(** The whole chain.  When audio was recorded, the recognizer returns a text
    that is not empty and the dictionary applies, the calls are, in this
    order: stop the recorder, transcribe its file, apply the dictionary to the
    text, scrub the result, record the statistics of the scrubbed text, type
    the scrubbed text.  The text typed, counted and kept as last transcript
    is the scrubber's output on the dictionary's output. *)
Theorem thread_types_the_scrubbed_dictionary_output
        (self : app) (text corrected : str) :
  audio_data (recorder self) <> 0 ->
  text <> [] ->
  Dictionary.apply (dictionary self) text = Some corrected ->
  let final := Scrubber.scrub (scrubber self) corrected in
  calls (_process_recording (Some text)) self
  = [Recorder_stop (Some (files self)); Transcribe (files self);
     Dictionary_apply text; Scrubber_scrub corrected;
     Stats_record final; Type_text final]
    ++ (if tray_icon self then [Tray Idle_icon] else [])
  /\ _last_transcript (state_after (_process_recording (Some text)) self) = final
  /\ is_processing (state_after (_process_recording (Some text)) self) = false.
Proof.
  open_app self. handler. intros Ha Ht Hd.
  destruct audio as [|audio]; [congruence|].
  destruct text as [|c text]; [congruence|]. cbn. rewrite Hd. cbn.
  destruct tray; cbn; repeat split.
Qed.

Lemma thread_types_the_scrubbed_dictionary_output_witness :
  let self :=
    state_after
      (run [Press (Special ctrl_l); Press (Special alt_l); Audio_chunk;
            Release (Special alt_l)])
      (init (py "Ctrl+Alt") (py "Space") (py "Escape") true
            (Dictionary.load [py "GitHub"]) Scrubber._use_defaults) in
  _last_transcript
    (state_after (_process_recording (Some (py "um I used get hub today"))) self)
  = py "I used GitHub today".
Proof.
  intros self.
  assert (Ha : audio_data (recorder self) <> 0) by (vm_compute; discriminate).
  assert (Ht : py "um I used get hub today" <> []) by discriminate.
  assert (Hd : Dictionary.apply (dictionary self) (py "um I used get hub today")
               = Some (py "um I used GitHub today")) by (vm_compute; reflexivity).
  destruct (thread_types_the_scrubbed_dictionary_output
              self (py "um I used get hub today") (py "um I used GitHub today")
              Ha Ht Hd) as (_ & H & _).
  rewrite H. vm_compute. reflexivity.
Defined.

(** A term that [re] rejects as a replacement template stops the chain:
    when the dictionary raises, the error is printed, and the text is neither
    scrubbed, counted nor typed; the last transcript is kept and the
    processing flag goes down as always. *)
Theorem bad_term_stops_the_pipeline (self : app) (text : str) :
  audio_data (recorder self) <> 0 ->
  text <> [] ->
  Dictionary.apply (dictionary self) text = None ->
  calls (_process_recording (Some text)) self
  = [Recorder_stop (Some (files self)); Transcribe (files self);
     Dictionary_apply text; Print Msg_error]
    ++ (if tray_icon self then [Tray Idle_icon] else [])
  /\ _last_transcript (state_after (_process_recording (Some text)) self)
     = _last_transcript self
  /\ is_processing (state_after (_process_recording (Some text)) self) = false.
Proof.
  open_app self. handler. intros Ha Ht Hd.
  destruct audio as [|audio]; [congruence|].
  destruct text as [|c text]; [congruence|]. cbn. rewrite Hd. cbn.
  destruct tray; cbn; repeat split.
Qed.

Lemma bad_term_stops_the_pipeline_witness :
  let self :=
    state_after
      (run [Press (Special ctrl_l); Press (Special alt_l); Audio_chunk;
            Release (Special alt_l)])
      (init (py "Ctrl+Alt") (py "Space") (py "Escape") true
            (Dictionary.load [py "Git\Hub"]) Scrubber._use_defaults) in
  calls (_process_recording (Some (py "I used get hub today"))) self
  = [Recorder_stop (Some 0); Transcribe 0;
     Dictionary_apply (py "I used get hub today"); Print Msg_error;
     Tray Idle_icon].
Proof.
  intros self.
  assert (Ha : audio_data (recorder self) <> 0) by (vm_compute; discriminate).
  assert (Ht : py "I used get hub today" <> []) by discriminate.
  assert (Hd : Dictionary.apply (dictionary self) (py "I used get hub today") = None)
    by (vm_compute; reflexivity).
  destruct (bad_term_stops_the_pipeline self (py "I used get hub today") Ha Ht Hd)
    as (H & _).
  rewrite H. vm_compute. reflexivity.
Defined.

(** No temporary file is left behind by the application: in every step, a
    file the recorder writes is at once either removed (the recording was
    cancelled) or handed to the recognizer (whose wrapper removes it). *)
Theorem every_audio_file_is_consumed (self : app) (e : event) (path : nat) :
  In (Recorder_stop (Some path)) (calls (step e) self) ->
  In (Remove_file path) (calls (step e) self)
  \/ In (Transcribe path) (calls (step e) self).
Proof.
  destruct e as [k | k | | transcribed]; open_app self; handler; crush;
    intros Hin;
    repeat (destruct Hin as [Hin | Hin];
            [try discriminate Hin; injection Hin as <-; cbn; tauto|]);
    destruct Hin.
Qed.

Lemma every_audio_file_is_consumed_witness :
  let self :=
    state_after
      (run [Press (Special ctrl_l); Press (Special alt_l); Audio_chunk])
      default_app in
  In (Recorder_stop (Some 0)) (calls (step (Press (Special esc))) self)
  /\ In (Remove_file 0) (calls (step (Press (Special esc))) self).
Proof.
  intros self.
  assert (H : In (Recorder_stop (Some 0)) (calls (step (Press (Special esc))) self)).
  { vm_compute. right. left. reflexivity. }
  split; [exact H|].
  destruct (every_audio_file_is_consumed self (Press (Special esc)) 0 H) as [R | T].
  - exact R.
  - exfalso. vm_compute in T. intuition discriminate.
Defined.

Lemma step_keeps_tray_icon (self : app) (e : event) :
  tray_icon (state_after (step e) self) = tray_icon self.
Proof.
  destruct e as [k | k | | transcribed]; open_app self; handler; crush; reflexivity.
Qed.

Lemma step_without_tray_icon (self : app) (e : event) (state : icon) :
  tray_icon self = false -> ~ In (Tray state) (calls (step e) self).
Proof.
  destruct e as [k | k | | transcribed]; open_app self; handler; intros ->;
    crush; intros Hin;
    repeat (destruct Hin as [Hin | Hin]; [discriminate Hin|]); exact Hin.
Qed.

Lemma calls_run_cons (e : event) (rest : list event) (self : app) :
  calls (run (e :: rest)) self
  = calls (step e) self ++ calls (run rest) (state_after (step e) self).
Proof.
  unfold calls, state_after. cbn [run]. unfold bind.
  destruct (step e self) as [[x a1] e1]. cbn.
  now destruct (run rest a1) as [[y a2] e2].
Qed.

Lemma run_without_tray_icon (events : list event) (self : app) (state : icon) :
  tray_icon self = false -> ~ In (Tray state) (calls (run events) self).
Proof.
  revert self. induction events as [|e rest IH]; intros self H.
  - intros [].
  - rewrite calls_run_cons. intros Hin. apply in_app_or in Hin as [Hin | Hin].
    + revert Hin. now apply step_without_tray_icon.
    + revert Hin. apply IH. now rewrite step_keeps_tray_icon.
Qed.

(** A reload of the settings resets the state whatever it was: the session
    is Idle, no key is held and the last transcript is empty, while the
    recorder and the pending thread are left as they are; so a reload during
    a recording leaves the recorder running with no session.  It also
    forgets the tray icon: from then on no event updates the tray. *)
Theorem reload_resets_the_session (file : config_file) (self : app) :
  let self' := _load_config file self in
  session_state self' = Idle
  /\ _pressed_keys self' = []
  /\ _last_transcript self' = []
  /\ recorder self' = recorder self
  /\ threads self' = threads self
  /\ (recording (recorder self) = true -> synchronized self' = false)
  /\ (forall events state, ~ In (Tray state) (calls (run events) self')).
Proof.
  intros self'. repeat split.
  - unfold synchronized. cbn. intros ->. reflexivity.
  - intros events state. now apply run_without_tray_icon.
Qed.


End TransitionFacts.

(** ** The dictionary: candidates, substitution, templates, phonetic forms *)

Section CandidateFacts.
Import Py Re Dictionary.





Lemma window_match_filters (self : Dictionary.t) (text : str) (words : list str)
      (term : str) (window_size i : nat) (m : candidate) :
  window_match self text words term window_size i = Some m ->
  forallb (fun w => mem w ignore_words) (split (lower (original m))) = false
  /\ PrimFloat.ltb (Float.of_nat (len (remove_spaces (original m))))
                   (Float.of_nat (len term) * 0.4)%float = false.
Proof.
  unfold window_match.
  destruct (forallb _ _) eqn:Hw; [discriminate|].
  destruct (PrimFloat.ltb _ _) eqn:Hs; [discriminate|].
  destruct (Float.geb _ _); [|discriminate].
  destruct (find _ _) eqn:Hf; [|discriminate].
  intros H. injection H as <-. simpl. auto.
Qed.



Lemma forallb_false_exists {A} (f : A -> bool) (l : list A) :
  forallb f l = false -> exists x, In x l /\ f x = false.
Proof.
  induction l as [|x l IH]; [discriminate|].
  cbn [forallb]. destruct (f x) eqn:E.
  - intros H. destruct (IH H) as (y & Hin & Hy). exists y. split; [now right|exact Hy].
  - intros _. exists x. split; [now left|exact E].
Qed.

(** What is never a candidate: a window made of common words only, and a
    window whose length without spaces is below 40% of the length of the
    term (the comparison the code makes in floats). *)
Theorem common_words_alone_are_never_candidates
        (self : Dictionary.t) (text : str) (m : candidate) :
  In m (_find_matches_in_text self text) ->
  (exists word, In word (split (lower (original m))) /\ mem word ignore_words = false)
  /\ PrimFloat.ltb (Float.of_nat (len (remove_spaces (original m))))
                   (Float.of_nat (len (replacement m)) * 0.4)%float = false.
Proof.
  intros H. apply in_find_matches in H as (term & window_size & i & _ & H).
  pose proof (window_match_spec _ _ _ _ _ _ _ H) as (Hr & _).
  apply window_match_filters in H as (Hw & Hs). rewrite Hr. split; [|exact Hs].
  now apply forallb_false_exists.
Qed.

Lemma common_words_alone_are_never_candidates_witness :
  let m := {| original := py "get hub"; replacement := py "GitHub";
              similarity := (10 / 12)%float; start := 7; end_ := 14 |} in
  In m (_find_matches_in_text (load [py "GitHub"]) (py "I used get hub today"))
  /\ exists word, In word (split (lower (original m)))
                  /\ mem word ignore_words = false.
Proof.
  intros m.
  assert (H : In m (_find_matches_in_text (load [py "GitHub"])
                                          (py "I used get hub today"))).
  { vm_compute. left. reflexivity. }
  split; [exact H|].
  exact (proj1 (common_words_alone_are_never_candidates _ _ _ H)).
Defined.

Lemma strip_prefix_ci_spec (p s rest : str) :
  strip_prefix_ci p s = Some rest ->
  exists mid, s = mid ++ rest /\ len mid = len p /\ lower mid = lower p.
Proof.
  revert s. induction p as [|x p IH]; intros s; simpl.
  - intros H. injection H as <-. now exists [].
  - destruct s as [|y s]; [discriminate|].
    destruct (eqb_char (lower_char x) (lower_char y)) eqn:E; [|discriminate].
    intros H. destruct (IH s H) as (mid & -> & Hl & Hm).
    apply eqb_char_eq in E. exists (y :: mid). unfold len in *. simpl.
    repeat split; [now rewrite Hl|now rewrite Hm, E].
Qed.

Lemma firstn_len_app (mid rest : str) (n : nat) :
  len mid = n -> firstn n (mid ++ rest) = mid.
Proof.
  intros <-. unfold len. rewrite firstn_app, Nat.sub_diag, firstn_all. simpl.
  apply app_nil_r.
Qed.

(** The substitution of [apply] touches one place at most.  Either the
    original occurs nowhere in the text, whatever the case, and the text
    comes back as it is; or the text is cut in three at the leftmost
    occurrence, and only the middle part, which reads as the original when
    case is ignored, is replaced, by the template expanded for it: what is
    before and after is kept. *)
Theorem substitution_replaces_the_first_occurrence
        (p : str) (repl : str -> str) (s : str) :
  (sub_first_ci p repl s = s
   /\ forall i, i <= len s -> strip_prefix_ci p (skipn i s) = None)
  \/ exists before mid after,
       s = before ++ mid ++ after
       /\ len mid = len p
       /\ lower mid = lower p
       /\ sub_first_ci p repl s = before ++ repl mid ++ after
       /\ forall i, i < len before -> strip_prefix_ci p (skipn i s) = None.
Proof.
  induction s as [|c s IH]; simpl.
  - destruct (strip_prefix_ci p []) as [rest|] eqn:E.
    + right. destruct (strip_prefix_ci_spec _ _ _ E) as (mid & Hs & Hl & Hm).
      exists [], mid, rest. simpl. repeat split; try assumption.
      * rewrite Hs at 1. now rewrite (firstn_len_app mid rest _ Hl).
      * intros i Hi. inversion Hi.
    + left. split; [reflexivity|]. intros i Hi.
      destruct i; simpl; [exact E|]. unfold len in Hi. simpl in Hi. lia.
  - destruct (strip_prefix_ci p (c :: s)) as [rest|] eqn:E.
    + right. destruct (strip_prefix_ci_spec _ _ _ E) as (mid & Hs & Hl & Hm).
      exists [], mid, rest. simpl. repeat split; try assumption.
      * rewrite Hs at 1. now rewrite (firstn_len_app mid rest _ Hl).
      * intros i Hi. inversion Hi.
    + destruct IH as [[Heq Hnone] | (before & mid & after & Hs & Hl & Hm & Hr & Hfirst)].
      * left. split; [now rewrite Heq|]. intros i Hi.
        destruct i; simpl; [exact E|]. apply Hnone. unfold len in *. simpl in Hi. lia.
      * right. exists (c :: before), mid, after. simpl.
        repeat split; try assumption; [now rewrite Hs at 1|now rewrite Hr|].
        intros i Hi. destruct i; simpl; [exact E|].
        apply Hfirst. unfold len in *. simpl in Hi. lia.
Qed.

Lemma parse_from_plain (s : str) :
  existsb (eqb_char backslash) s = false ->
  parse_from Text s = Some (map (fun c => Chars [c]) s).
Proof.
  induction s as [|c s IH]; intros H; [reflexivity|].
  cbn [existsb] in H. apply orb_false_iff in H as [Hc Hs].
  assert (E : eqb_char c backslash = false).
  { destruct (eqb_char c backslash) eqn:E; [|reflexivity].
    apply eqb_char_eq in E. subst c. rewrite <- Hc. symmetry. now apply eqb_char_eq. }
  cbn [parse_from template_step map]. unfold text_step. rewrite E, (IH Hs). reflexivity.
Qed.

Lemma expand_plain (s matched : str) :
  expand_template (map (fun c => Chars [c]) s) matched = s.
Proof.
  unfold expand_template. induction s as [|c s IH]; simpl; [reflexivity|].
  now rewrite IH.
Qed.

Lemma apply_step_total (st : state) (m : candidate) :
  parse_template (replacement m) <> None -> apply_step st m <> None.
Proof.
  intros H. unfold apply_step, decide_step.
  destruct (same_as_term m); [discriminate|].
  destruct (contains_term_word m); [discriminate|].
  destruct (overlaps_applied m (applied st)); [discriminate|].
  destruct (parse_template (replacement m)); [|congruence].
  destruct (eqb_str _ _); discriminate.
Qed.

Lemma apply_loop_raises (ms : list candidate) (st : state) :
  apply_loop st ms = None ->
  exists m, In m ms /\ parse_template (replacement m) = None.
Proof.
  revert st. induction ms as [|m rest IH]; intros st; simpl; [discriminate|].
  destruct (apply_step st m) as [st'|] eqn:E.
  - intros H. destruct (IH st' H) as (x & Hin & Hx). exists x. split; [now right|exact Hx].
  - intros _. exists m. split; [now left|].
    destruct (parse_template (replacement m)) eqn:Ep; [|reflexivity].
    exfalso. apply (apply_step_total st m); [congruence|exact E].
Qed.

(** [apply] raises only where [re] rejects one of the terms as a replacement
    template.  A term without a backslash is a template that stands for
    itself, so [apply] returns a text whenever no term has a backslash. *)
Theorem apply_raises_only_on_a_bad_template :
  (forall (self : Dictionary.t) (text : str),
      apply self text = None ->
      exists term, In term (terms self) /\ parse_template term = None)
  /\ (forall term : str,
         existsb (eqb_char backslash) term = false ->
         exists template,
           parse_template term = Some template
           /\ forall matched, expand_template template matched = term)
  /\ (forall (self : Dictionary.t) (text : str),
         Forall (fun term => existsb (eqb_char backslash) term = false) (terms self) ->
         exists result, apply self text = Some result).
Proof.
  assert (A : forall (self : Dictionary.t) (text : str),
             apply self text = None ->
             exists term, In term (terms self) /\ parse_template term = None).
  { intros self text. unfold apply.
    destruct (terms self) as [|t ts] eqn:Et; [discriminate|].
    destruct text as [|c text]; [discriminate|].
    destruct (_find_matches_in_text self (c :: text)) as [|m0 ms] eqn:Em; [discriminate|].
    rewrite <- Em.
    destruct (apply_loop _ _) as [st|] eqn:E; [discriminate|]. intros _.
    apply apply_loop_raises in E as (m & Hin & Hm).
    apply (Permutation_in _ (Permutation_sym (sort_by_score_perm _))) in Hin.
    apply in_find_matches in Hin as (term & ws & i & Hterm & Hx).
    apply window_match_spec in Hx as (Hr & _).
    exists term. split; [now rewrite <- Et|now rewrite <- Hr]. }
  assert (B : forall term : str,
             existsb (eqb_char backslash) term = false ->
             exists template,
               parse_template term = Some template
               /\ forall matched, expand_template template matched = term).
  { intros term H. exists (map (fun c => Chars [c]) term). split.
    - now apply parse_from_plain.
    - intros matched. apply expand_plain. }
  split; [exact A|]. split; [exact B|].
  intros self text H.
  destruct (apply self text) as [r|] eqn:E; [now exists r|].
  exfalso. destruct (A self text E) as (term & Hin & Hp).
  rewrite Forall_forall in H.
  destruct (B term (H term Hin)) as (template & Ht & _). congruence.
Qed.

(** A term is read as a template, not as a text.  With the term written
    G i t backslash n H u b, "get hub" is replaced by "Git", a line feed and
    "Hub"; with the term written G i t backslash H u b the substitution
    raises and [apply] returns nothing. *)
Theorem term_is_read_as_a_template :
  apply (load [py "Git\nHub"]) (py "I used get hub today")
  = Some (py "I used Git" ++ [newline] ++ py "Hub today")
  /\ parse_template (py "Git\Hub") = None
  /\ apply (load [py "Git\Hub"]) (py "I used get hub today") = None.
Proof. vm_compute. repeat split; reflexivity. Qed.

Lemma lower_char_idempotent (c : ascii) : lower_char (lower_char c) = lower_char c.
Proof.
  apply eqb_char_eq. revert c. apply for_all_chars. vm_compute. reflexivity.
Qed.

Lemma lower_char_space (c : ascii) :
  eqb_char (lower_char c) space = eqb_char c space.
Proof.
  assert (A : forall c, Bool.eqb (eqb_char (lower_char c) space) (eqb_char c space) = true).
  { apply for_all_chars. vm_compute. reflexivity. }
  now apply Bool.eqb_prop.
Qed.

Lemma lower_idempotent (s : str) : lower (lower s) = lower s.
Proof.
  unfold lower. rewrite map_map. apply map_ext. apply lower_char_idempotent.
Qed.

Lemma remove_spaces_lower (s : str) :
  remove_spaces (lower s) = lower (remove_spaces s).
Proof.
  induction s as [|c s IH]; [reflexivity|].
  unfold remove_spaces, lower in *. simpl. rewrite lower_char_space.
  destruct (eqb_char c space); simpl; now rewrite IH.
Qed.

Lemma remove_spaces_idempotent (s : str) :
  remove_spaces (remove_spaces s) = remove_spaces s.
Proof.
  unfold remove_spaces. induction s as [|c s IH]; [reflexivity|]. simpl.
  destruct (eqb_char c space) eqn:E; simpl; [exact IH|]. now rewrite E, IH.
Qed.

(** The phonetic form has only lower-case letters and digits, and does not
    depend on the case or the spaces of its input; so the similarity of a
    text to a term is the same for two texts that differ in case and spaces
    only. *)
Theorem phonetic_form_ignores_case_and_spaces :
  (forall text, Forall (fun c => is_lower c || is_digit c = true) (_to_phonetic text))
  /\ (forall text, _to_phonetic (lower text) = _to_phonetic text)
  /\ (forall text, _to_phonetic (remove_spaces text) = _to_phonetic text)
  /\ (forall self text text' term,
         remove_spaces (lower text) = remove_spaces (lower text') ->
         _phonetic_similarity self text term = _phonetic_similarity self text' term).
Proof.
  split; [|split; [|split]].
  - intros text. unfold _to_phonetic. apply Forall_forall. intros c Hc.
    apply filter_In in Hc. exact (proj2 Hc).
  - intros text. unfold _to_phonetic. rewrite lower_idempotent. reflexivity.
  - intros text. unfold _to_phonetic.
    rewrite remove_spaces_lower, remove_spaces_idempotent, <- remove_spaces_lower.
    reflexivity.
  - intros self text text' term H. unfold _phonetic_similarity, _to_phonetic.
    rewrite H. reflexivity.
Qed.

End CandidateFacts.

(** ** The scrubber: order of the fillers, ends of the output, edge cases *)

Section ScrubberEdgeFacts.
Import Py Re Scrubber.




Lemma lstrip_head (s : str) (c : ascii) (t : str) :
  lstrip s = c :: t -> isspace c = false.
Proof.
  induction s as [|x s IH]; simpl; [discriminate|].
  destruct (isspace x) eqn:E; [exact IH|].
  intros H. injection H as <- _. exact E.
Qed.

Lemma lstrip_suffix (s : str) : exists dropped, s = dropped ++ lstrip s.
Proof.
  induction s as [|x s [dropped IH]]; simpl.
  - now exists [].
  - destruct (isspace x).
    + exists (x :: dropped). simpl. now rewrite <- IH.
    + now exists [].
Qed.

Lemma strip_ends (s : str) :
  (forall c t, strip s = c :: t -> isspace c = false)
  /\ (forall c t, rev (strip s) = c :: t -> isspace c = false).
Proof.
  unfold strip. split.
  - intros c t H.
    destruct (lstrip_suffix (rev (lstrip s))) as [dropped E].
    apply (f_equal (@rev ascii)) in E. rewrite rev_involutive, rev_app_distr in E.
    rewrite H in E. simpl in E. exact (lstrip_head _ _ _ E).
  - intros c t. rewrite rev_involutive. apply lstrip_head.
Qed.

(** What [scrub] returns, when it is enabled and the text is not empty,
    neither starts nor ends with white space. *)
Theorem scrub_output_is_stripped (self : Scrubber.t) (text : str) :
  enabled self = true -> text <> [] ->
  (forall c rest, scrub self text = c :: rest -> isspace c = false)
  /\ (forall c rest, rev (scrub self text) = c :: rest -> isspace c = false).
Proof.
  intros He Ht. unfold scrub. rewrite He.
  destruct text as [|x text]; [congruence|]. cbn [negb orb].
  unfold _cleanup. apply strip_ends.
Qed.

Lemma scrub_output_is_stripped_witness :
  enabled _use_defaults = true
  /\ py "  um, so it works  " <> []
  /\ (forall c rest,
        scrub _use_defaults (py "  um, so it works  ") = c :: rest ->
        isspace c = false)
  /\ scrub _use_defaults (py "  um, so it works  ") = py "so it works".
Proof.
  assert (He : enabled _use_defaults = true) by reflexivity.
  assert (Ht : py "  um, so it works  " <> []) by discriminate.
  split; [exact He|]. split; [exact Ht|]. split.
  - exact (proj1 (scrub_output_is_stripped _use_defaults
                    (py "  um, so it works  ") He Ht)).
  - vm_compute. reflexivity.
Defined.


End ScrubberEdgeFacts.
